(** * design.appclub.dev: the streaming engine of the design agent

    A shallow embedding of
    - [composables/useProjectState.ts]: the screens and their snapshot history,
    - [composables/chat/handleToolEvents.ts]: the handler of stream chunks,
    - [composables/chat/parseSSEStream.ts]: the reader loop that cuts the byte
      stream into events,
    - [server/api/chat.post.ts]: the early extraction of a screen id from the
      partial input of an upsertScreen call,
    followed by the properties of these functions. *)

From Equations Require Import Equations.
From stdpp Require Import gmap strings list.
From Stdlib Require Import ZArith QArith Lia.

Set Default Proof Using "Type".
Open Scope string_scope.
Open Scope list_scope.
Open Scope Z_scope.

(** ** JavaScript values the code tests

    [x && ...], [!x] and [if (x)] on a value that is a string or is absent:
    absent and the empty string are falsy. *)
Definition truthy (s : option string) : bool :=
  match s with
  | Some s => negb (String.eqb s "")
  | None => false
  end.

(** A double quote and a line feed, for the literals that hold one. *)
Definition dq : string := String (Ascii.ascii_of_nat 34) EmptyString.
Definition nl : string := String (Ascii.ascii_of_nat 10) EmptyString.

(** A JavaScript number as far as the code uses one as a subscript: a finite
    value (a fraction; the integers are those of denominator one after
    reduction), or one of the three values that are not finite. *)
Inductive number :=
| Finite (q : Q)
| NaN
| PosInfinity
| NegInfinity.

Definition of_int (z : Z) : number := Finite (inject_Z z).

(** [a[n]] reads an element only when [n] is a non-negative integer (minus
    zero is zero); any other number names a property that an array does not
    have, and the read gives undefined. *)
Definition array_index (n : number) : option nat :=
  match n with
  | Finite q =>
      if (Qnum q mod Zpos (Qden q) =? 0) && (0 <=? Qnum q)
      then Some (Z.to_nat (Qnum q / Zpos (Qden q)))
      else None
  | _ => None
  end.

(** ** useProjectState.ts *)
Module ProjectState.

(** [interface Screen]. Coordinates are integers: the values the module itself
    writes are 100, 50 and [maxX + 50]. The code adds them as doubles, which is
    exact as long as the integers stay within 2^53 in magnitude; beyond that
    the doubles round and the sums here do not follow them. *)
Record Screen := mkScreen {
  sc_id : string;
  sc_name : string;
  sc_html : string;
  sc_css : string;
  sc_x : Z;
  sc_y : Z
}.

(** [Partial<Screen> & { id: string }]: [None] is a property the object does not
    have. *)
Record PartialScreen := mkPartial {
  p_id : string;
  p_name : option string;
  p_html : option string;
  p_css : option string;
  p_x : option Z;
  p_y : option Z
}.

(** [options?: { skipHistory?: boolean }] *)
Record Options := mkOptions { skipHistory : option bool }.

(** Arrays of screens are objects: [screens.value] and the [screens] of a
    history item are references, and [screens.value[index] = ...] and [push]
    write through the reference. The heap holds every [Screen[]] allocated so
    far, a reference is its position. A [Screen] itself is held by value: no
    statement of the module writes a field of an existing screen, [upsertScreen]
    puts a new object in the slot. *)
Abbreviation loc := nat (only parsing).
Abbreviation Heap := (list (list Screen)) (only parsing).

(** [interface HistoryItem] *)
Record HistoryItem := mkHistoryItem {
  timestamp : Z;
  hi_screens : loc
}.

(** The state behind [useProjectState]: the two [useState] cells and the two
    module-level refs. *)
Record State := mkState {
  heap : Heap;
  screens : loc;
  history : list HistoryItem;
  editingScreenId : option string;
  isDesigning : bool
}.

#[global] Instance Screen_eq_dec : EqDecision Screen.
Proof. solve_decision. Defined.
#[global] Instance HistoryItem_eq_dec : EqDecision HistoryItem.
Proof. solve_decision. Defined.

Definition deref (h : Heap) (l : loc) : list Screen := default [] (h !! l).

(** The array [screens.value] refers to. *)
Definition live (st : State) : list Screen := deref (heap st) (screens st).

(** The array a history item refers to. *)
Definition snapshot (st : State) (item : HistoryItem) : list Screen :=
  deref (heap st) (hi_screens item).

(** [JSON.parse(JSON.stringify(a))]: a new array of new objects with the same
    field values (strings and integers survive the round trip). *)
Definition clone (h : Heap) (a : list Screen) : loc * Heap :=
  (length h, h ++ [a]).

(** The welcome screen [useState] starts from. *)
Definition welcome_html : string :=
  nl +:+ "        <div style=" +:+ dq +:+
  "padding: 20px; text-align: center; height: 100%; display: flex; flex-direction: column; justify-content: center; align-items: center; font-family: sans-serif;" +:+
  dq +:+ ">" +:+ nl +:+
  "          <h1 style=" +:+ dq +:+ "font-size: 24px; margin-bottom: 10px;" +:+ dq +:+
  ">Welcome to App Club Design</h1>" +:+ nl +:+
  "          <p style=" +:+ dq +:+ "color: #666;" +:+ dq +:+
  ">Ask the AI to design something for you!</p>" +:+ nl +:+
  "        </div>" +:+ nl +:+ "      ".

Definition welcome : Screen :=
  {| sc_id := "welcome"; sc_name := "Welcome Screen"; sc_html := welcome_html;
     sc_css := ""; sc_x := 100; sc_y := 100 |}.

Definition initial : State :=
  {| heap := [[welcome]]; screens := 0%nat; history := [];
     editingScreenId := None; isDesigning := false |}.

(** [!options?.skipHistory] *)
Definition records_history (options : option Options) : bool :=
  match options with
  | Some {| skipHistory := Some true |} => false
  | _ => true
  end.

(** [history.value.push({ timestamp: Date.now(), screens: <copy of screens.value> })] *)
Definition push_snapshot (now : Z) (st : State) : State :=
  let '(l, h) := clone (heap st) (live st) in
  {| heap := h; screens := screens st;
     history := history st ++ [{| timestamp := now; hi_screens := l |}];
     editingScreenId := editingScreenId st; isDesigning := isDesigning st |}.

(** [{ ...old, ...screen }] *)
Definition merge (old : Screen) (screen : PartialScreen) : Screen :=
  {| sc_id := p_id screen;
     sc_name := default (sc_name old) (p_name screen);
     sc_html := default (sc_html old) (p_html screen);
     sc_css := default (sc_css old) (p_css screen);
     sc_x := default (sc_x old) (p_x screen);
     sc_y := default (sc_y old) (p_y screen) |}.

(** [screens.value.reduce((max, s) => Math.max(max, s.x + 400), 0)] *)
Definition maxX (l : list Screen) : Z :=
  fold_left (fun max s => Z.max max (sc_x s + 400)) l 0.

(** [{ name: 'Untitled Screen', html: '', css: '', x: maxX + 50, y: 50, ...screen }] *)
Definition create (mx : Z) (screen : PartialScreen) : Screen :=
  {| sc_id := p_id screen;
     sc_name := default "Untitled Screen" (p_name screen);
     sc_html := default "" (p_html screen);
     sc_css := default "" (p_css screen);
     sc_x := default (mx + 50) (p_x screen);
     sc_y := default 50 (p_y screen) |}.

(** A write through the reference [screens.value]. *)
Definition set_live (a : list Screen) (st : State) : State :=
  {| heap := <[screens st := a]> (heap st); screens := screens st;
     history := history st;
     editingScreenId := editingScreenId st; isDesigning := isDesigning st |}.

(** [screens.value.findIndex(s => s.id === id)]; [None] is -1. *)
Definition findIndex (id : string) (l : list Screen) : option (nat * Screen) :=
  list_find (fun s => sc_id s = id) l.

(** [upsertScreen(screen, options)]; [now] is what [Date.now()] returns. *)
Definition upsertScreen (now : Z) (screen : PartialScreen)
    (options : option Options) (st : State) : State :=
  let st := if records_history options then push_snapshot now st else st in
  match findIndex (p_id screen) (live st) with
  | Some (index, old) => set_live (<[index := merge old screen]> (live st)) st
  | None => set_live (live st ++ [create (maxX (live st)) screen]) st
  end.

(** [history.value[index]] *)
Definition history_at (st : State) (index : number) : option HistoryItem :=
  array_index index ≫= fun i => history st !! i.

(** [restoreVersion(index)] *)
Definition restoreVersion (index : number) (st : State) : State :=
  match history_at st index with
  | Some item =>
      let '(l, h) := clone (heap st) (snapshot st item) in
      {| heap := h; screens := l; history := history st;
         editingScreenId := editingScreenId st; isDesigning := isDesigning st |}
  | None => st
  end.

Definition setEditingScreenId (id : option string) (st : State) : State :=
  {| heap := heap st; screens := screens st; history := history st;
     editingScreenId := id; isDesigning := isDesigning st |}.

Definition setIsDesigning (value : bool) (st : State) : State :=
  {| heap := heap st; screens := screens st; history := history st;
     editingScreenId := editingScreenId st; isDesigning := value |}.

(** The states the module can be in: every reference points into the heap,
    and no history item shares its array with [screens.value]. *)
Definition wf (st : State) : Prop :=
  (screens st < length (heap st))%nat ∧
  Forall (fun item => (hi_screens item < length (heap st))%nat
                      ∧ hi_screens item ≠ screens st) (history st).

End ProjectState.

(** ** chat/types.ts and chat/handleToolEvents.ts *)
Module ToolEvents.
Import ProjectState.

(** ['call' | 'result' | 'error'] *)
Inductive InvocationState := st_call | st_result | st_error.

(** The input of a tool call as the handler reads it: [input.id] and
    [input.name], each present when its [typeof] is ['string']. *)
Record ToolInput := mkInput {
  in_id : option string;
  in_name : option string
}.

(** The output of a tool call under the two casts the handler reads it
    through: [output as { id: string; name?; html?; css? }] for upsertScreen and
    [(output as { index: number }).index] for restoreVersion. *)
Record ToolOutput := mkOutput {
  out_screen : PartialScreen;
  out_index : number
}.

(** [interface ToolInvocation] *)
Record ToolInvocation := mkInvocation {
  toolCallId : string;
  toolName : option string;
  state : InvocationState;
  args : option ToolInput;
  result : option ToolOutput;
  errorText : option string
}.

(** [interface Message], the two fields the handler uses. *)
Record Message := mkMessage {
  content : string;
  toolInvocations : option (list ToolInvocation)
}.

(** [interface SSEChunk], by its [type]; the fields are those the handler
    reads, typed by its casts. A field of [data-editing-start] is present when
    its [typeof] is ['string']; [input] and [output] are absent when undefined. *)
Inductive SSEChunk :=
| text_delta (delta : string)
| tool_input_start (toolCallId toolName : string)
| data_editing_start (screenId toolCallId : option string)
| tool_input_available (toolCallId toolName : string) (input : option ToolInput)
| tool_output_available (toolCallId : string) (output : option ToolOutput)
| tool_output_error (toolCallId errorText : string)
| stream_error (errorText : string)
| other_chunk (type : string).

(** [interface ToolEventHandlerDeps]: the message, the map and the project
    state its four actions work on. *)
Record Deps := mkDeps {
  assistantMessage : Message;
  toolCallIdToScreenId : gmap string string;
  project : State
}.

Definition find_invocation (id : string) (l : list ToolInvocation)
    : option (nat * ToolInvocation) :=
  list_find (fun i => toolCallId i = id) l.

Definition set_toolName (n : option string) (i : ToolInvocation) : ToolInvocation :=
  {| toolCallId := toolCallId i; toolName := n; state := state i;
     args := args i; result := result i; errorText := errorText i |}.

(** [getOrCreateInvocation(toolCallId, toolName?)]: the message after the call
    and the invocation returned. With [toolInvocations] undefined nothing is
    found and the created invocation is pushed nowhere. *)
Definition getOrCreateInvocation (id : string) (name : option string)
    (m : Message) : Message * ToolInvocation :=
  match toolInvocations m ≫= fun l => (fun r => (l, r)) <$> find_invocation id l with
  | Some (l, (k, existing)) =>
      if truthy name && negb (truthy (toolName existing))
      then let existing := set_toolName name existing in
           ({| content := content m; toolInvocations := Some (<[k := existing]> l) |},
            existing)
      else (m, existing)
  | None =>
      let created :=
        {| toolCallId := id; toolName := name; state := st_call;
           args := None; result := None; errorText := None |} in
      ({| content := content m;
          toolInvocations := (fun l => l ++ [created]) <$> toolInvocations m |},
       created)
  end.

(** A write to a field of the invocation [getOrCreateInvocation] returned: it
    is the first one of the message with its id, when the message has any. *)
Definition write_invocation (i : ToolInvocation) (m : Message) : Message :=
  {| content := content m;
     toolInvocations :=
       (fun l => match find_invocation (toolCallId i) l with
                 | Some (k, _) => <[k := i]> l
                 | None => l
                 end) <$> toolInvocations m |}.

Definition with_message (m : Message) (d : Deps) : Deps :=
  {| assistantMessage := m; toolCallIdToScreenId := toolCallIdToScreenId d;
     project := project d |}.

Definition with_project (f : State → State) (d : Deps) : Deps :=
  {| assistantMessage := assistantMessage d;
     toolCallIdToScreenId := toolCallIdToScreenId d;
     project := f (project d) |}.

Definition with_map (f : gmap string string → gmap string string) (d : Deps) : Deps :=
  {| assistantMessage := assistantMessage d;
     toolCallIdToScreenId := f (toolCallIdToScreenId d);
     project := project d |}.

Definition placeholder (id name : string) : PartialScreen :=
  {| p_id := id; p_name := Some name; p_html := None; p_css := None;
     p_x := None; p_y := None |}.

Definition skip : option Options := Some {| skipHistory := Some true |}.

Definition is_tool (name : string) (i : ToolInvocation) : bool :=
  bool_decide (toolName i = Some name).

(** [handleChunk(chunk)]; [now] is what [Date.now()] returns while the chunk
    is handled. [await nextTick()] changes none of this state. *)
Definition handleChunk (now : Z) (chunk : SSEChunk) (d : Deps) : Deps :=
  match chunk with
  | text_delta delta =>
      with_message
        {| content := content (assistantMessage d) +:+ delta;
           toolInvocations := toolInvocations (assistantMessage d) |} d
  | tool_input_start id name =>
      let '(m, _) := getOrCreateInvocation id (Some name) (assistantMessage d) in
      let d := with_message m d in
      if String.eqb name "upsertScreen"
      then with_project (setIsDesigning true) d
      else d
  | data_editing_start (Some screenId) (Some id) =>
      let d := with_map <[id := screenId]> d in
      let d := with_project (setEditingScreenId (Some screenId)) d in
      with_project (upsertScreen now (placeholder screenId "Designing...") skip) d
  | data_editing_start _ _ => d
  | tool_input_available id name input =>
      let '(m, invocation) :=
        getOrCreateInvocation id (Some name) (assistantMessage d) in
      let invocation :=
        {| toolCallId := toolCallId invocation; toolName := toolName invocation;
           state := st_call; args := input;
           result := result invocation; errorText := errorText invocation |} in
      let d := with_message (write_invocation invocation m) d in
      match is_tool "upsertScreen" invocation, input ≫= in_id with
      | true, Some input_id =>
          let d := with_map <[id := input_id]> d in
          let d := with_project (setEditingScreenId (Some input_id)) d in
          let name := default "Untitled Screen" (input ≫= in_name) in
          with_project (upsertScreen now (placeholder input_id name) skip) d
      | _, _ => d
      end
  | tool_output_available id output =>
      let '(m, invocation) :=
        getOrCreateInvocation id None (assistantMessage d) in
      let invocation :=
        {| toolCallId := toolCallId invocation; toolName := toolName invocation;
           state := st_result; args := args invocation;
           result := output; errorText := errorText invocation |} in
      let d := with_message (write_invocation invocation m) d in
      match is_tool "upsertScreen" invocation, output with
      | true, Some out =>
          let d := with_project (upsertScreen now (out_screen out) None) d in
          let d := with_map (delete id) d in
          let d := with_project (setEditingScreenId None) d in
          with_project (setIsDesigning false) d
      | _, _ =>
          match is_tool "restoreVersion" invocation, output with
          | true, Some out => with_project (restoreVersion (out_index out)) d
          | _, _ => d
          end
      end
  | tool_output_error id text =>
      let '(m, invocation) :=
        getOrCreateInvocation id None (assistantMessage d) in
      let invocation :=
        {| toolCallId := toolCallId invocation; toolName := toolName invocation;
           state := st_error; args := args invocation;
           result := result invocation; errorText := Some text |} in
      let d := with_message (write_invocation invocation m) d in
      if is_tool "upsertScreen" invocation then
        let d := with_map (delete id) d in
        let d := with_project (setEditingScreenId None) d in
        with_project (setIsDesigning false) d
      else d
  | stream_error _ => d
  | other_chunk _ => d
  end.

(** The chunks of a stream handled in order, each at its own clock reading. *)
Fixpoint handleChunks (chunks : list (Z * SSEChunk)) (d : Deps) : Deps :=
  match chunks with
  | [] => d
  | (now, chunk) :: rest => handleChunks rest (handleChunk now chunk d)
  end.

(** The invocation of the message with the given id: what
    [toolInvocations.find(i => i.toolCallId === id)] returns. *)
Definition invocation_of (id : string) (d : Deps) : option ToolInvocation :=
  toolInvocations (assistantMessage d) ≫= fun l => snd <$> find_invocation id l.

(** What [useChatAgent] hands to [createToolEventHandler]: an empty message,
    an empty map and the project state. *)
Definition fresh (p : State) : Deps :=
  {| assistantMessage := {| content := ""; toolInvocations := Some [] |};
     toolCallIdToScreenId := ∅; project := p |}.

End ToolEvents.

(** ** Strings the code looks inside

    The frame loop and the id extraction work on the characters of a string;
    there a JavaScript string is the list of its UTF-16 code units. *)
Abbreviation text := (list N) (only parsing).

(** The code units of a literal of ASCII characters. *)
Fixpoint units (s : string) : text :=
  match s with
  | EmptyString => []
  | String a r => Ascii.N_of_ascii a :: units r
  end.

Definition quote : N := 34.
Definition colon : N := 58.
Definition LF : N := 10.
Definition CR : N := 13.

(** White space and line terminators: the class [\s] of a regular expression
    and what [trimStart] removes. *)
Definition is_space (c : N) : bool :=
  ((9 <=? c) && (c <=? 13) || (c =? 32) || (c =? 160) || (c =? 0x1680)
   || (0x2000 <=? c) && (c <=? 0x200A)
   || (c =? 0x2028) || (c =? 0x2029) || (c =? 0x202F) || (c =? 0x205F)
   || (c =? 0x3000) || (c =? 0xFEFF))%N.

(** [s.startsWith(p)] *)
Fixpoint startsWith (p s : text) : bool :=
  match p, s with
  | [], _ => true
  | a :: p, b :: s => (a =? b)%N && startsWith p s
  | _ :: _, [] => false
  end.

(** [s.trimStart()] and the greedy [\s*] *)
Fixpoint trimStart (s : text) : text :=
  match s with
  | c :: r => if is_space c then trimStart r else s
  | [] => []
  end.

(** A prefix test succeeds on the strings that begin with the prefix. *)
Lemma startsWith_true (p s : text) :
  startsWith p s = true ↔ ∃ r, s = p ++ r.
Proof.
  revert s. induction p as [|a p IH]; intros s; cbn [startsWith].
  { split; [eauto|done]. }
  destruct s as [|b s].
  { split; [done|]. by intros [r ?]. }
  rewrite andb_true_iff, N.eqb_eq, IH. split.
  - intros [-> [r ->]]. by exists r.
  - intros [r [= -> ->]]. eauto.
Qed.

(** ** server/api/chat.post.ts: the id of a screen from partial input *)
Module Extractor.

(** The regular expression of [onUpsertInputDelta] reads: the key id between
    quotes, [\s*], a colon, [\s*], a quote, one or more characters that are not
    a quote (the captured group), a quote. *)

(** The group and the quote that closes it, greedy: the longest run without a
    quote, which has to end at a quote. No shorter run matches, the character
    after it is not a quote. *)
Fixpoint quoted_value (s : text) : option text :=
  match s with
  | [] => None
  | c :: r =>
      if (c =? quote)%N then Some []
      else (fun v => c :: v) <$> quoted_value r
  end.

(** The pattern matched at the start of [s]: the captured group. Greedy
    [\s*] never has to give a character back, the colon and the quote that
    follow it are not white space; the group has at least one character. *)
Definition id_key : text := quote :: units "id" ++ [quote].

Definition match_here (s : text) : option text :=
  if startsWith id_key s then
    match trimStart (drop (length id_key) s) with
    | c :: r =>
        if (c =? colon)%N then
          match trimStart r with
          | c' :: r' =>
              if (c' =? quote)%N then
                match quoted_value r' with
                | Some [] => None
                | v => v
                end
              else None
          | [] => None
          end
        else None
    | [] => None
    end
  else None.

(** [updated.match(...)]: the match that starts leftmost; [idMatch[1]]. *)
Fixpoint id_match (s : text) : option text :=
  match match_here s with
  | Some v => Some v
  | None =>
      match s with
      | [] => None
      | _ :: r => id_match r
      end
  end.

(** The custom event written to the client. *)
Record EditingStart := mkEditingStart {
  screenId : text;
  toolCallId : string
}.

(** What a request holds: the two collections of the handler and what it
    has written to the stream, oldest first. *)
Record State := mkState {
  upsertInputBuffers : gmap string text;
  sentEditingStart : gset string;
  written : list EditingStart
}.

Definition initial : State :=
  {| upsertInputBuffers := ∅; sentEditingStart := ∅; written := [] |}.

(** [onUpsertInputDelta(toolCallId, delta)] *)
Definition onUpsertInputDelta (id : string) (delta : text) (st : State) : State :=
  let current := default [] (upsertInputBuffers st !! id) in
  let updated := current ++ delta in
  let buffers := <[id := updated]> (upsertInputBuffers st) in
  if bool_decide (id ∈ sentEditingStart st) then
    {| upsertInputBuffers := buffers; sentEditingStart := sentEditingStart st;
       written := written st |}
  else
    match id_match updated with
    | Some screenId =>
        {| upsertInputBuffers := buffers;
           sentEditingStart := sentEditingStart st ∪ {[ id ]};
           written := written st ++ [{| screenId := screenId; toolCallId := id |}] |}
    | None =>
        {| upsertInputBuffers := buffers; sentEditingStart := sentEditingStart st;
           written := written st |}
    end.

(** The deltas of a request in the order the model streams them. *)
Fixpoint onDeltas (deltas : list (string * text)) (st : State) : State :=
  match deltas with
  | [] => st
  | (id, delta) :: rest => onDeltas rest (onUpsertInputDelta id delta st)
  end.

(** The signals written for one call. *)
Definition signals_for (id : string) (st : State) : list EditingStart :=
  filter (fun e => toolCallId e = id) (written st).

End Extractor.

(** ** The platform's [TextDecoder]

    [new TextDecoder()] decodes UTF-8; called with [{ stream: true }] it keeps
    its state from one call to the next. This is the decoder of the Encoding
    standard, byte by byte, with errors replaced by U+FFFD and a leading byte
    order mark dropped. *)
Module TextDecoder.

Record state := mkDecoder {
  code_point : N;
  bytes_seen : N;
  bytes_needed : N;
  lower_boundary : N;
  upper_boundary : N;
  bom_seen : bool
}.

Definition initial : state :=
  {| code_point := 0; bytes_seen := 0; bytes_needed := 0;
     lower_boundary := 0x80; upper_boundary := 0xBF; bom_seen := false |}.

Definition replacement : N := 0xFFFD.

Definition between (lo hi b : N) : bool := ((lo <=? b) && (b <=? hi))%N.

Definition expect (needed cp lo hi : N) (st : state) : state :=
  {| code_point := cp; bytes_seen := 0; bytes_needed := needed;
     lower_boundary := lo; upper_boundary := hi; bom_seen := bom_seen st |}.

Definition reset (st : state) : state := expect 0 0 0x80 0xBF st.

(** A byte read when no sequence is open: the code points it yields. *)
Definition lead (st : state) (b : N) : state * list N :=
  if between 0x00 0x7F b then (st, [b])
  else if between 0xC2 0xDF b then
    (expect 1 (N.land b 0x1F) (lower_boundary st) (upper_boundary st) st, [])
  else if between 0xE0 0xEF b then
    (expect 2 (N.land b 0xF)
       (if (b =? 0xE0)%N then 0xA0%N else lower_boundary st)
       (if (b =? 0xED)%N then 0x9F%N else upper_boundary st) st, [])
  else if between 0xF0 0xF4 b then
    (expect 3 (N.land b 0x7)
       (if (b =? 0xF0)%N then 0x90%N else lower_boundary st)
       (if (b =? 0xF4)%N then 0x8F%N else upper_boundary st) st, [])
  else (st, [replacement]).

(** The handler of the standard for one byte. A byte that cannot continue the
    open sequence ends it in an error and is read again as a first byte. *)
Definition handler (st : state) (b : N) : state * list N :=
  if (bytes_needed st =? 0)%N then lead st b
  else if negb (between (lower_boundary st) (upper_boundary st) b) then
    let '(st, out) := lead (reset st) b in (st, replacement :: out)
  else
    let cp := N.lor (N.shiftl (code_point st) 6) (N.land b 0x3F) in
    let seen := (bytes_seen st + 1)%N in
    if (seen =? bytes_needed st)%N then (reset st, [cp])
    else
      ({| code_point := cp; bytes_seen := seen; bytes_needed := bytes_needed st;
          lower_boundary := 0x80; upper_boundary := 0xBF;
          bom_seen := bom_seen st |}, []).

(** A code point as UTF-16 code units. *)
Definition utf16 (cp : N) : text :=
  if (cp <? 0x10000)%N then [cp]
  else [(0xD800 + N.shiftr (cp - 0x10000) 10)%N;
        (0xDC00 + N.land (cp - 0x10000) 0x3FF)%N].

(** The code points of a call appended to its result; the first code point
    of the stream is dropped when it is the byte order mark. *)
Fixpoint serialize (seen : bool) (cps : list N) : bool * text :=
  match cps with
  | [] => (seen, [])
  | cp :: rest =>
      if negb seen && (cp =? 0xFEFF)%N then serialize true rest
      else let '(seen, out) := serialize true rest in (seen, utf16 cp ++ out)
  end.

Definition step (st : state) (b : Byte.byte) : state * text :=
  let '(st, cps) := handler st (Byte.to_N b) in
  let '(seen, out) := serialize (bom_seen st) cps in
  ({| code_point := code_point st; bytes_seen := bytes_seen st;
      bytes_needed := bytes_needed st; lower_boundary := lower_boundary st;
      upper_boundary := upper_boundary st; bom_seen := seen |}, out).

(** [decoder.decode(value, { stream: true })] *)
Fixpoint decode (st : state) (value : list Byte.byte) : state * text :=
  match value with
  | [] => (st, [])
  | b :: rest =>
      let '(st, out) := step st b in
      let '(st, out') := decode st rest in
      (st, out ++ out')
  end.

End TextDecoder.

(** ** chat/parseSSEStream.ts *)
Module Sse.

(** [s.replaceAll('\r', '')] *)
Definition strip_cr (s : text) : text := filter (fun c => c ≠ CR) s.

(** [s.indexOf(needle)]; [None] is -1. *)
Fixpoint indexOf (needle s : text) : option nat :=
  if startsWith needle s then Some 0%nat
  else match s with
       | [] => None
       | _ :: r => S <$> indexOf needle r
       end.

(** [s.split('\n')] *)
Fixpoint split_lines (s : text) : list text :=
  match s with
  | [] => [[]]
  | c :: r =>
      if (c =? LF)%N then [] :: split_lines r
      else match split_lines r with
           | l :: ls => (c :: l) :: ls
           | [] => [[c]]
           end
  end.

(** [lines.join('\n')] *)
Fixpoint join_lines (lines : list text) : text :=
  match lines with
  | [] => []
  | [l] => l
  | l :: ls => l ++ LF :: join_lines ls
  end.

Definition separator : text := [LF; LF].
Definition data_prefix : text := units "data:".
Definition DONE : text := units "[DONE]".

(** The lines of a raw event that start with the prefix. *)
Definition dataLines (rawEvent : text) : list text :=
  filter (fun l => startsWith data_prefix l = true) (split_lines rawEvent).

(** [dataLines.map(l => l.slice('data:'.length).trimStart()).join('\n')] *)
Definition payload (lines : list text) : text :=
  join_lines (map (fun l => trimStart (drop (length data_prefix) l)) lines).

(** What one pass of the inner [while (!streamDone)] does with the buffer. *)
Inductive Cut :=
| no_separator
| skipped (buffer : text)
| finished (buffer : text)
| event (data buffer : text).

Definition cut (buffer : text) : Cut :=
  match indexOf separator buffer with
  | None => no_separator
  | Some separatorIndex =>
      let rawEvent := take separatorIndex buffer in
      let buffer := drop (separatorIndex + 2) buffer in
      match dataLines rawEvent with
      | [] => skipped buffer
      | lines =>
          let data := payload lines in
          if bool_decide (data = DONE) then finished buffer else event data buffer
      end
  end.

(** The separator is found inside the buffer, so every pass but the one that
    stops leaves a shorter buffer: the inner loop ends. *)
Lemma indexOf_Some (needle s : text) (i : nat) :
  indexOf needle s = Some i →
  ∃ pre post, s = pre ++ needle ++ post ∧ length pre = i.
Proof.
  revert i. induction s as [|a s IH]; intros i; cbn [indexOf].
  - destruct (startsWith needle []) eqn:E; [|done].
    intros [= <-]. apply startsWith_true in E as [r ->]. by exists [], r.
  - destruct (startsWith needle (a :: s)) eqn:E.
    + intros [= <-]. apply startsWith_true in E as [r ->]. by exists [], r.
    + destruct (indexOf needle s) as [j|]; [|done].
      cbn. intros [= <-]. destruct (IH j eq_refl) as (pre & post & -> & <-).
      by exists (a :: pre), post.
Qed.

Lemma indexOf_separator_bound (s : text) (i : nat) :
  indexOf separator s = Some i → (i + 2 ≤ length s)%nat.
Proof.
  intros (pre & post & -> & <-)%indexOf_Some.
  rewrite !length_app. simpl. lia.
Qed.

Definition rest_of (c : Cut) (buffer : text) : text :=
  match c with
  | no_separator => buffer
  | skipped b | finished b | event _ b => b
  end.

Lemma cut_shorter (buffer : text) :
  cut buffer ≠ no_separator →
  (length (rest_of (cut buffer) buffer) < length buffer)%nat.
Proof.
  unfold cut. destruct (indexOf separator buffer) as [i|] eqn:E; [|done].
  intros _. apply indexOf_separator_bound in E.
  assert (length (drop (i + 2) buffer) < length buffer)%nat
    by (rewrite length_drop; lia).
  destruct (dataLines (take i buffer)); [done|].
  by case_bool_decide.
Qed.

Definition inspect {A : Type} (a : A) : {b | a = b} := exist _ a eq_refl.

(** The inner loop on a buffer: the payloads that reach [JSON.parse] in order,
    the buffer it leaves, and [streamDone]. *)
Equations? drain (buffer : text) : list text * text * bool
  by wf (length buffer) lt :=
drain buffer with inspect (cut buffer) := {
  | exist _ no_separator _ => ([], buffer, false)
  | exist _ (skipped b) _ => drain b
  | exist _ (finished b) _ => ([], b, true)
  | exist _ (event data b) _ =>
      let '(payloads, b, streamDone) := drain b in
      (data :: payloads, b, streamDone) }.
Proof.
  all: match goal with
       | H : cut ?buffer = _ |- _ =>
           pose proof (cut_shorter buffer) as Hlt;
           rewrite H in Hlt; apply Hlt; discriminate
       end.
Defined.

(** The outer loop: one pass for each chunk [reader.read()] returns, until
    the reader is done or the sentinel was read. *)
Fixpoint read_loop (chunks : list (list Byte.byte))
    (decoder : TextDecoder.state) (buffer : text) : list text :=
  match chunks with
  | [] => []
  | value :: rest =>
      let '(decoder, s) := TextDecoder.decode decoder value in
      let buffer := buffer ++ strip_cr s in
      let '(payloads, buffer, streamDone) := drain buffer in
      if streamDone then payloads
      else payloads ++ read_loop rest decoder buffer
  end.

(** [parseSSEStream(reader, options)]: the payloads parsed, in order. *)
Definition parseSSEStream (chunks : list (list Byte.byte)) : list text :=
  read_loop chunks TextDecoder.initial [].

(** The calls [parseSSEStream] makes to its options: [onChunk] with what
    [JSON.parse] returns, [onError] when [JSON.parse] throws and also when the
    handler does, since the [try] holds both; [onDone] at the end. [throws c]
    tells that the handler throws on [c]. *)
Inductive Call (chunk : Type) :=
| onChunk (c : chunk)
| onError (data : text)
| onDone.
Arguments onChunk {chunk} c.
Arguments onError {chunk} data.
Arguments onDone {chunk}.

Definition calls {chunk : Type} (JSON_parse : text → option chunk)
    (throws : chunk → bool) (chunks : list (list Byte.byte)) : list (Call chunk) :=
  flat_map (fun data => match JSON_parse data with
                        | Some c => if throws c then [onChunk c; onError data]
                                    else [onChunk c]
                        | None => [onError data]
                        end) (parseSSEStream chunks) ++ [onDone].

(** Bytes and chunks of ASCII text. *)
Fixpoint bytes (s : string) : list Byte.byte :=
  match s with
  | EmptyString => []
  | String a r => Ascii.byte_of_ascii a :: bytes r
  end.

End Sse.

(** ** server/utils/ai-tools.ts *)
Module AiTools.
Import ProjectState.

(** [Array.isArray(screens) ? screens : []]: [screens] is the value of the
    request body, an array of screens or something that is not an array. *)
Definition screenList (screens : option (list Screen)) : list Screen :=
  default [] screens.

(** [{ id: s?.id, name: s?.name }] *)
Record ScreenRef := mkRef {
  ref_id : string;
  ref_name : string
}.

(** What [listScreens] returns in [screens]. *)
Definition listScreens (screens : option (list Screen)) : list ScreenRef :=
  (fun s => {| ref_id := sc_id s; ref_name := sc_name s |}) <$> screenList screens.

(** [{ id: screen.id, name: screen.name, html: screen.html, css: screen.css }] *)
Record ScreenCode := mkCode {
  code_id : string;
  code_name : string;
  code_html : string;
  code_css : string
}.

(** [getScreen({ id })]: [None] is [{ found: false }], [Some screen] is
    [{ found: true, screen }]. *)
Definition getScreen (id : string) (screens : option (list Screen))
    : option ScreenCode :=
  (fun r => {| code_id := sc_id r.2; code_name := sc_name r.2;
               code_html := sc_html r.2; code_css := sc_css r.2 |})
  <$> list_find (fun s => sc_id s = id) (screenList screens).

(** The input of the upsertScreen tool, by its schema. *)
Record UpsertInput := mkUpsert {
  u_id : string;
  u_name : string;
  u_html : string;
  u_css : string
}.

(** What the upsertScreen tool returns, [{ id, name, html, css }], as the
    object the client hands to its own upsertScreen. *)
Definition upsertScreen (input : UpsertInput) : PartialScreen :=
  {| p_id := u_id input; p_name := Some (u_name input);
     p_html := Some (u_html input); p_css := Some (u_css input);
     p_x := None; p_y := None |}.

End AiTools.

(** ** components/ExportModal.vue *)
Module ExportModal.
Import ProjectState.

(** The hyphen the three replacements write and read. *)
Definition dash : N := 45.

(** [[a-z0-9]] *)
Definition alnum (c : N) : bool :=
  ((97 <=? c) && (c <=? 122) || (48 <=? c) && (c <=? 57))%N.

Definition is_dash (c : N) : bool := (c =? dash)%N.

(** [s.replace(/[class]+/g, '-')]: every maximal run of characters of the
    class becomes one hyphen. [run] tells that the character before was of
    the class, so that its hyphen is already written. *)
Fixpoint replace_runs (cls : N → bool) (run : bool) (s : text) : text :=
  match s with
  | [] => []
  | c :: r =>
      if cls c
      then if run then replace_runs cls true r
           else dash :: replace_runs cls true r
      else c :: replace_runs cls false r
  end.

(** The first alternative of [/^-|-$/g]: a hyphen at the start. *)
Definition strip_first (s : text) : text :=
  match s with
  | c :: r => if is_dash c then r else s
  | [] => []
  end.

(** The second alternative: a hyphen at the end of what the first has left. *)
Fixpoint strip_last (s : text) : text :=
  match s with
  | [] => []
  | [c] => if is_dash c then [] else [c]
  | c :: r => c :: strip_last r
  end.

Section Sanitize.
(** [String.prototype.toLowerCase], which the platform provides. *)
Variable toLowerCase : text → text.

(** [sanitizeFilename(name)] *)
Definition sanitizeFilename (name : text) : text :=
  strip_last
    (strip_first
       (replace_runs is_dash false
          (replace_runs (fun c => negb (alnum c)) false (toLowerCase name)))).

End Sanitize.

(** [selectedIds] is a [Set<string>]. *)
Definition allSelected (screens : list Screen) (selectedIds : gset string) : bool :=
  (0 <? length screens)%nat && (size selectedIds =? length screens)%nat.

Definition toggleAll (screens : list Screen) (selectedIds : gset string)
    : gset string :=
  if allSelected screens selectedIds then ∅
  else list_to_set (sc_id <$> screens).

Definition toggleScreen (id : string) (selectedIds : gset string) : gset string :=
  if decide (id ∈ selectedIds) then selectedIds ∖ {[id]}
  else selectedIds ∪ {[id]}.

(** The watcher of [props.open]: opening the dialog selects every screen. *)
Definition opened (screens : list Screen) : gset string :=
  list_to_set (sc_id <$> screens).

(** [screens.value.filter(s => selectedIds.value.has(s.id))], the screens
    [handleExport] writes. *)
Definition selectedScreens (screens : list Screen) (selectedIds : gset string)
    : list Screen :=
  filter (fun s => sc_id s ∈ selectedIds) screens.

(** What the template lets the user do to the selection: the box of all
    screens calls [toggleAll], the box of a screen [toggleScreen(screen.id)]. *)
Inductive Click :=
| click_all
| click_screen (id : string).

Definition click (screens : list Screen) (selectedIds : gset string) (c : Click)
    : gset string :=
  match c with
  | click_all => toggleAll screens selectedIds
  | click_screen id => toggleScreen id selectedIds
  end.

Definition clicks (screens : list Screen) (cs : list Click) : gset string :=
  foldl (click screens) (opened screens) cs.

End ExportModal.

(** ** composables/useChatAgent.ts *)
Module ChatAgent.
Import ProjectState ToolEvents Sse.

(** What [handleSubmit] passes to [parseSSEStream]: [onChunk] is the handler
    of [createToolEventHandler], [onError] writes to the console, and there is
    no [onDone]. [clock k] is what [Date.now()] returns during call [k]. *)
Fixpoint receive (clock : nat → Z) (k : nat) (cs : list (Call SSEChunk))
    (d : Deps) : Deps :=
  match cs with
  | [] => d
  | onChunk chunk :: rest => receive clock (S k) rest (handleChunk (clock k) chunk d)
  | _ :: rest => receive clock (S k) rest d
  end.

(** [await parseSSEStream(reader, { onChunk: handleChunk, onError })].
    [JSON_parse] gives a chunk of the type the handler reads; on such a chunk
    the handler does not throw. It gives none for a payload [JSON.parse]
    rejects and for one that is no object, on which the handler throws before
    it writes anything. *)
Definition stream (JSON_parse : text → option SSEChunk) (clock : nat → Z)
    (chunks : list (list Byte.byte)) (d : Deps) : Deps :=
  receive clock 0 (calls JSON_parse (fun _ => false) chunks) d.

End ChatAgent.

(** * The project state: screens and history *)
Section StoreFacts.
Import ProjectState.
Implicit Types (st : State) (h : list (list Screen)) (a : list Screen) (l k : nat)
  (item : HistoryItem) (screen : PartialScreen) (options : option Options)
  (index : number).

Lemma deref_app_l h a l : (l < length h)%nat → deref (h ++ [a]) l = deref h l.
Proof. intros. unfold deref. by rewrite lookup_app_l. Qed.

Lemma deref_app_new h a : deref (h ++ [a]) (length h) = a.
Proof. unfold deref. by rewrite list_lookup_middle. Qed.

Lemma deref_insert_eq h a l : (l < length h)%nat → deref (<[l := a]> h) l = a.
Proof. intros. unfold deref. by rewrite list_lookup_insert_eq. Qed.

Lemma deref_insert_ne h a l l' : l ≠ l' → deref (<[l := a]> h) l' = deref h l'.
Proof. intros. unfold deref. by rewrite list_lookup_insert_ne. Qed.

(** ** The invariant of the heap *)

Lemma wf_initial : wf initial.
Proof. split; [simpl; lia|constructor]. Qed.

Lemma wf_push_snapshot now st : wf st → wf (push_snapshot now st).
Proof.
  intros [Hs Hh]. split; cbn; rewrite length_app; cbn; [lia|].
  apply Forall_app. split.
  - eapply Forall_impl; [done|]. cbn. intros ? [??]. split; [lia|done].
  - repeat constructor; cbn; lia.
Qed.

Lemma wf_set_live a st : wf st → wf (set_live a st).
Proof.
  intros [Hs Hh]. split; cbn; rewrite length_insert; [done|].
  eapply Forall_impl; [done|]. cbn. by intros ? [??].
Qed.

Lemma wf_upsertScreen now screen options st :
  wf st → wf (upsertScreen now screen options st).
Proof.
  intros Hwf. unfold upsertScreen.
  assert (wf (if records_history options then push_snapshot now st else st))
    by (destruct (records_history options); auto using wf_push_snapshot).
  by destruct findIndex as [[??]|]; apply wf_set_live.
Qed.

Lemma wf_restoreVersion index st : wf st → wf (restoreVersion index st).
Proof.
  intros [Hs Hh]. unfold restoreVersion.
  destruct (history_at st index) as [item|]; [|done].
  split; cbn; rewrite length_app; cbn; [lia|].
  eapply Forall_impl; [done|]. cbn. intros ? [??]. split; lia.
Qed.

(** The states the operations lead to from the initial one. *)
Inductive reachable : State → Prop :=
| reach_initial : reachable initial
| reach_upsertScreen (now : Z) screen options st :
    reachable st → reachable (upsertScreen now screen options st)
| reach_restoreVersion index st :
    reachable st → reachable (restoreVersion index st)
| reach_setEditingScreenId (id : option string) st :
    reachable st → reachable (setEditingScreenId id st)
| reach_setIsDesigning (value : bool) st :
    reachable st → reachable (setIsDesigning value st).

Lemma reachable_wf st : reachable st → wf st.
Proof.
  induction 1; auto using wf_initial, wf_upsertScreen, wf_restoreVersion.
Qed.

Lemma wf_item st i item :
  wf st → history st !! i = Some item →
  (hi_screens item < length (heap st))%nat ∧ hi_screens item ≠ screens st.
Proof. intros [_ Hh] Hi. by apply (Forall_lookup_1 _ _ _ _ Hh Hi). Qed.

(** ** What [screens.value] holds after an operation *)

Lemma live_push_snapshot now st :
  (screens st < length (heap st))%nat → live (push_snapshot now st) = live st.
Proof. intros Hs. unfold live. cbn. by apply deref_app_l. Qed.

Lemma live_set_live a st :
  (screens st < length (heap st))%nat → live (set_live a st) = a.
Proof. intros Hs. unfold live. cbn. by apply deref_insert_eq. Qed.

Lemma live_upsertScreen now screen options st :
  (screens st < length (heap st))%nat →
  live (upsertScreen now screen options st) =
  match findIndex (p_id screen) (live st) with
  | Some (k, old) => <[k := merge old screen]> (live st)
  | None => live st ++ [create (maxX (live st)) screen]
  end.
Proof.
  intros Hs. unfold upsertScreen.
  set (st1 := if records_history options then push_snapshot now st else st).
  assert ((screens st1 < length (heap st1))%nat ∧ live st1 = live st) as [Hs1 ->].
  { subst st1. destruct (records_history options); [|done].
    split; [|by apply live_push_snapshot]. cbn. rewrite length_app. lia. }
  by destruct findIndex as [[??]|]; rewrite live_set_live.
Qed.

Lemma live_restoreVersion index st item :
  history_at st index = Some item →
  live (restoreVersion index st) = snapshot st item.
Proof.
  intros E. unfold restoreVersion. rewrite E. unfold live. cbn.
  apply deref_app_new.
Qed.

(** A screen is only found through a reference into the heap. *)
Lemma live_elem_valid st s :
  s ∈ live st → (screens st < length (heap st))%nat.
Proof.
  unfold live, deref. destruct (heap st !! screens st) eqn:E; cbn.
  - intros _. by eapply lookup_lt_Some.
  - by intros ?%elem_of_nil.
Qed.

(** ** The history after an operation *)

Lemma history_upsertScreen now screen options st :
  history (upsertScreen now screen options st) =
  if records_history options
  then history st ++ [{| timestamp := now; hi_screens := length (heap st) |}]
  else history st.
Proof.
  unfold upsertScreen.
  by destruct (records_history options); destruct findIndex as [[??]|].
Qed.

(** The items of the history and their arrays are out of reach of both
    operations. *)
Definition keeps_history st st' : Prop :=
  ∀ i item, history st !! i = Some item →
    history st' !! i = Some item ∧ snapshot st' item = snapshot st item.

Lemma keeps_history_refl st : keeps_history st st.
Proof. by intros i item ?. Qed.

Lemma keeps_history_trans st1 st2 st3 :
  keeps_history st1 st2 → keeps_history st2 st3 → keeps_history st1 st3.
Proof.
  intros H12 H23 i item Hi. destruct (H12 i item Hi) as [Hi2 E2].
  destruct (H23 i item Hi2) as [Hi3 E3]. split; [done|congruence].
Qed.

Lemma keeps_history_push now st : wf st → keeps_history st (push_snapshot now st).
Proof.
  intros Hwf i item Hi. destruct (wf_item _ _ _ Hwf Hi) as [Hlt _]. split.
  - cbn. by apply lookup_app_l_Some.
  - unfold snapshot. cbn. by apply deref_app_l.
Qed.

Lemma keeps_history_set_live a st : wf st → keeps_history st (set_live a st).
Proof.
  intros Hwf i item Hi. destruct (wf_item _ _ _ Hwf Hi) as [_ Hne]. split; [done|].
  unfold snapshot. cbn. by apply deref_insert_ne.
Qed.

Lemma keeps_history_upsertScreen now screen options st :
  wf st → keeps_history st (upsertScreen now screen options st).
Proof.
  intros Hwf. unfold upsertScreen.
  set (st1 := if records_history options then push_snapshot now st else st).
  assert (wf st1 ∧ keeps_history st st1) as [Hwf1 Hk].
  { subst st1. destruct (records_history options);
      auto using wf_push_snapshot, keeps_history_push, keeps_history_refl. }
  eapply keeps_history_trans; [done|].
  by destruct findIndex as [[??]|]; apply keeps_history_set_live.
Qed.

Lemma keeps_history_restoreVersion index st :
  wf st → keeps_history st (restoreVersion index st).
Proof.
  intros Hwf i item Hi. unfold restoreVersion.
  destruct (history_at st index) as [item'|]; [|done].
  destruct (wf_item _ _ _ Hwf Hi) as [Hlt _]. split; [done|].
  unfold snapshot. cbn. by apply deref_app_l.
Qed.

Lemma history_at_keeps st st' index item :
  keeps_history st st' → history_at st index = Some item →
  history_at st' index = Some item.
Proof.
  unfold history_at. intros Hk. destruct (array_index index) as [i|]; [|done].
  cbn. intros Hi. by apply Hk.
Qed.

(** ** Subscripts *)

Lemma array_index_Some index i :
  array_index index = Some i ↔
  ∃ q, index = Finite q ∧ (q == inject_Z (Z.of_nat i))%Q.
Proof.
  destruct index as [[n d]| | |]; cbn; try (split; [done|by intros (?&?&?)]).
  unfold Qeq. cbn. split.
  - destruct (n mod Z.pos d =? 0) eqn:Hm; [|done].
    destruct (0 <=? n) eqn:Hn; [|done]. cbn. intros [= <-].
    eexists; split; [done|]. cbn.
    apply Z.eqb_eq in Hm. apply Z.leb_le in Hn.
    apply Z.div_exact in Hm; [|lia]. rewrite Z2Nat.id; [lia|].
    apply Z.div_pos; lia.
  - intros (q & [= <-] & Hq). cbn in Hq.
    assert (n = Z.of_nat i * Z.pos d) as -> by lia.
    rewrite Z.mod_mul, Z.div_mul by lia. cbn.
    assert ((0 <=? Z.of_nat i * Z.pos d) = true) as -> by (apply Z.leb_le; lia).
    by rewrite Nat2Z.id.
Qed.

(** The subscripts that name no item of the history: a number that is not an
    integer, a negative one, one that is at least the length, and the three
    values that are not finite. *)
Definition out_of_range st index : Prop :=
  match index with
  | Finite q =>
      (∀ z : Z, ¬ (q == inject_Z z)%Q)
      ∨ (q < 0)%Q
      ∨ (inject_Z (Z.of_nat (length (history st))) <= q)%Q
  | _ => True
  end.

Lemma history_at_None st index :
  history_at st index = None ↔ out_of_range st index.
Proof.
  unfold history_at. split.
  - destruct index as [q| | |]; cbn [out_of_range]; try done.
    destruct (array_index (Finite q)) as [i|] eqn:E; cbn.
    + intros Hi%lookup_ge_None. right; right.
      apply array_index_Some in E as (? & [= <-] & ->).
      rewrite <- Zle_Qle. lia.
    + intros _. destruct (Z.neg_nonneg_cases (Qnum q)) as [Hn|Hn].
      { right; left. unfold Qlt. cbn. lia. }
      left. intros z Hz.
      assert (0 <= z) as Hz0.
      { unfold Qeq in Hz. cbn in Hz. nia. }
      assert (array_index (Finite q) = Some (Z.to_nat z)) as E'.
      { apply array_index_Some. eexists; split; [done|]. by rewrite Z2Nat.id. }
      congruence.
  - intros Hout. destruct (array_index index) as [i|] eqn:E; [|done]. cbn.
    apply array_index_Some in E as (q & -> & Hq). apply lookup_ge_None.
    destruct Hout as [Hout|[Hout|Hout]].
    + by destruct (Hout _ Hq).
    + rewrite Hq in Hout. apply Qlt_not_le in Hout. destruct Hout.
      replace 0%Q with (inject_Z 0) by done. rewrite <- Zle_Qle. lia.
    + rewrite Hq, <- Zle_Qle in Hout. lia.
Qed.

End StoreFacts.

(** * Properties of the project state *)
Section StoreProperties.
Import ProjectState.
Implicit Types (st : State) (item : HistoryItem) (screen : PartialScreen)
  (options : option Options) (index : number) (k : nat).

(** C4. An upsert with [skipHistory: true] leaves the length of the history
    as it is; an upsert without options, without the flag or with the flag
    false makes the history one item longer. *)
Theorem upsertScreen_history_length now screen st :
  length (history (upsertScreen now screen (Some {| skipHistory := Some true |}) st))
    = length (history st)
  ∧ length (history (upsertScreen now screen None st)) = S (length (history st))
  ∧ length (history (upsertScreen now screen (Some {| skipHistory := None |}) st))
    = S (length (history st))
  ∧ length (history (upsertScreen now screen (Some {| skipHistory := Some false |}) st))
    = S (length (history st)).
Proof.
  rewrite !history_upsertScreen. cbn [records_history].
  rewrite !length_app. cbn. lia.
Qed.

(** C6. When the state holds a screen with the id of the update, the upsert
    puts in its place a screen with the same id in which every field the
    update provides has the provided value and every field it omits has the
    value the stored screen had; the other screens and their order stay. *)
Theorem upsertScreen_merge now screen options st k old :
  findIndex (p_id screen) (live st) = Some (k, old) →
  let st' := upsertScreen now screen options st in
  ∃ new, live st' !! k = Some new
    ∧ sc_id new = sc_id old
    ∧ sc_name new = match p_name screen with Some v => v | None => sc_name old end
    ∧ sc_html new = match p_html screen with Some v => v | None => sc_html old end
    ∧ sc_css new = match p_css screen with Some v => v | None => sc_css old end
    ∧ sc_x new = match p_x screen with Some v => v | None => sc_x old end
    ∧ sc_y new = match p_y screen with Some v => v | None => sc_y old end
    ∧ length (live st') = length (live st)
    ∧ ∀ j, j ≠ k → live st' !! j = live st !! j.
Proof.
  intros Hfind st'. subst st'.
  pose proof Hfind as (Hk & Hid & _)%list_find_Some.
  rewrite live_upsertScreen, Hfind
    by (eapply live_elem_valid, list_elem_of_lookup_2, Hk).
  exists (merge old screen). split_and!.
  - apply list_lookup_insert_eq. by eapply lookup_lt_Some.
  - done.
  - cbn. by destruct (p_name screen).
  - cbn. by destruct (p_html screen).
  - cbn. by destruct (p_css screen).
  - cbn. by destruct (p_x screen).
  - cbn. by destruct (p_y screen).
  - by rewrite length_insert.
  - intros j ?. by rewrite list_lookup_insert_ne.
Qed.

Definition restyle : PartialScreen :=
  {| p_id := "welcome"; p_name := None; p_html := Some "<p/>"; p_css := None;
     p_x := None; p_y := None |}.

Lemma upsertScreen_merge_witness :
  findIndex (p_id restyle) (live initial) = Some (0%nat, welcome)
  ∧ ∃ new, live (upsertScreen 7 restyle None initial) !! 0%nat = Some new
      ∧ sc_name new = "Welcome Screen" ∧ sc_html new = "<p/>"
      ∧ sc_x new = 100.
Proof.
  assert (findIndex (p_id restyle) (live initial) = Some (0%nat, welcome)) as H
    by reflexivity.
  split; [exact H|].
  destruct (upsertScreen_merge 7 restyle None initial 0 welcome H)
    as (new & Hnew & _ & Hname & Hhtml & _ & Hx & _).
  exists new. repeat split; assumption.
Defined.

(** C8. A subscript that names no item of the history (a number that is not
    an integer, a negative one, one at or past the length) reads nothing, and
    [restoreVersion] returns the state it was given: screens, history and
    heap unchanged. The function is total, nothing is raised. *)
Theorem restoreVersion_out_of_range st index :
  out_of_range st index →
  history_at st index = None ∧ restoreVersion index st = st.
Proof.
  intros E%history_at_None. split; [done|]. unfold restoreVersion. by rewrite E.
Qed.

Lemma restoreVersion_out_of_range_witness :
  out_of_range initial (Finite (1 # 2))
  ∧ restoreVersion (Finite (1 # 2)) initial = initial.
Proof.
  assert (out_of_range initial (Finite (1 # 2))) as H.
  { left. intros z. unfold Qeq. simpl. lia. }
  split; [exact H|].
  exact (proj2 (restoreVersion_out_of_range initial (Finite (1 # 2)) H)).
Defined.

(** C5. In a state of the module and for a subscript that names an item of
    the history, restore, then any upsert, then the same restore leave in
    [screens.value] the screens the item held before the three calls. The
    item and its array are still what they were, and a restore right after a
    restore changes no screen. *)
Theorem restoreVersion_isolated st index item now screen options :
  wf st → history_at st index = Some item →
  let st1 := restoreVersion index st in
  let st2 := upsertScreen now screen options st1 in
  let st3 := restoreVersion index st2 in
  live st1 = snapshot st item
  ∧ live st3 = snapshot st item
  ∧ history_at st3 index = Some item
  ∧ snapshot st3 item = snapshot st item
  ∧ live (restoreVersion index st1) = live st1.
Proof.
  intros Hwf Hi st1 st2 st3.
  assert (wf st1) as Hwf1 by by apply wf_restoreVersion.
  assert (wf st2) as Hwf2 by by apply wf_upsertScreen.
  assert (keeps_history st st1) as H1 by by apply keeps_history_restoreVersion.
  assert (keeps_history st1 st2) as H2 by by apply keeps_history_upsertScreen.
  assert (keeps_history st2 st3) as H3 by by apply keeps_history_restoreVersion.
  pose proof (keeps_history_trans _ _ _ H1 H2) as H12.
  pose proof (keeps_history_trans _ _ _ H12 H3) as H13.
  assert (∃ i, history st !! i = Some item) as [i Hl].
  { unfold history_at in Hi. destruct (array_index index) as [i|]; [|done]. eauto. }
  split_and!.
  - by apply live_restoreVersion.
  - subst st3. rewrite (live_restoreVersion _ _ item).
    + by apply (H12 i).
    + by apply (history_at_keeps st).
  - by apply (history_at_keeps st).
  - by apply (H13 i).
  - rewrite (live_restoreVersion _ _ item).
    + subst st1. rewrite (live_restoreVersion _ _ item) by done. by apply (H1 i).
    + by apply (history_at_keeps st).
Qed.

Definition login : PartialScreen :=
  {| p_id := "login"; p_name := Some "Login"; p_html := Some "<div/>";
     p_css := Some ""; p_x := None; p_y := None |}.

(** The state after one recorded upsert: two screens and a history of one
    item that holds the welcome screen alone. *)
Definition with_login : State := upsertScreen 1 login None initial.

Lemma restoreVersion_isolated_witness :
  wf with_login
  ∧ history_at with_login (of_int 0) = Some {| timestamp := 1; hi_screens := 1 |}
  ∧ live (restoreVersion (of_int 0)
            (upsertScreen 2 restyle None (restoreVersion (of_int 0) with_login)))
    = [welcome].
Proof.
  assert (wf with_login) as Hwf.
  { split; [vm_compute; lia|]. repeat constructor; vm_compute; lia. }
  assert (history_at with_login (of_int 0)
          = Some {| timestamp := 1; hi_screens := 1 |}) as Hat by reflexivity.
  split; [exact Hwf|]. split; [exact Hat|].
  destruct (restoreVersion_isolated with_login (of_int 0) _ 2 restyle None Hwf Hat)
    as (_ & Hlive & _).
  exact Hlive.
Defined.

(** C9. After an upsert with [skipHistory: true] of an id the state does not
    hold, the history is as it was; the next recorded upsert appends one item,
    and the array of that item holds the placeholder screen after the screens
    that were there. Restoring the new item brings the placeholder back. *)
Theorem snapshot_has_placeholder st now now' id name screen :
  wf st → findIndex id (live st) = None →
  let created :=
    {| sc_id := id; sc_name := name; sc_html := ""; sc_css := "";
       sc_x := maxX (live st) + 50; sc_y := 50 |} in
  let st1 :=
    upsertScreen now
      {| p_id := id; p_name := Some name; p_html := None; p_css := None;
         p_x := None; p_y := None |}
      (Some {| skipHistory := Some true |}) st in
  let st2 := upsertScreen now' screen None st1 in
  history st1 = history st
  ∧ ∃ item, history st2 = history st ++ [item]
    ∧ snapshot st2 item = live st ++ [created]
    ∧ live (restoreVersion (of_int (Z.of_nat (length (history st)))) st2)
      = live st ++ [created].
Proof.
  intros Hwf Hfind created st1 st2.
  assert (wf st1) as Hwf1 by by apply wf_upsertScreen.
  assert (live st1 = live st ++ [created]) as Hlive1.
  { subst st1. rewrite live_upsertScreen by apply Hwf. cbn [p_id]. by rewrite Hfind. }
  assert (history st1 = history st) as Hh1.
  { subst st1. by rewrite history_upsertScreen. }
  split; [done|].
  set (item := {| timestamp := now'; hi_screens := length (heap st1) |}).
  assert (history st2 = history st ++ [item]) as Hh2.
  { subst st2. by rewrite history_upsertScreen, Hh1. }
  set (st1' := push_snapshot now' st1).
  assert (st2 = match findIndex (p_id screen) (live st1') with
                | Some (k, old) => set_live (<[k := merge old screen]> (live st1')) st1'
                | None => set_live (live st1' ++ [create (maxX (live st1')) screen]) st1'
                end) as Hst2 by done.
  assert (history st1' !! length (history st) = Some item) as Hl.
  { cbn. rewrite Hh1. by apply list_lookup_middle. }
  assert (snapshot st1' item = live st1) as Hs by apply deref_app_new.
  assert (keeps_history st1' st2) as Hk.
  { rewrite Hst2. pose proof (wf_push_snapshot now' st1 Hwf1).
    by destruct (findIndex (p_id screen) (live st1')) as [[??]|];
      apply keeps_history_set_live. }
  destruct (Hk _ _ Hl) as [Hl2 Hs2].
  exists item. split_and!; [done|congruence|].
  rewrite (live_restoreVersion _ _ item); [congruence|].
  unfold history_at.
  assert (array_index (of_int (Z.of_nat (length (history st))))
          = Some (length (history st))) as ->; [|done].
  apply array_index_Some. by eexists.
Qed.

Lemma snapshot_has_placeholder_witness :
  wf initial ∧ findIndex "login" (live initial) = None
  ∧ ∃ item,
      history (upsertScreen 2 login None
                 (upsertScreen 1
                    {| p_id := "login"; p_name := Some "Designing...";
                       p_html := None; p_css := None; p_x := None; p_y := None |}
                    (Some {| skipHistory := Some true |}) initial)) = [item]
      ∧ snapshot (upsertScreen 2 login None
                 (upsertScreen 1
                    {| p_id := "login"; p_name := Some "Designing...";
                       p_html := None; p_css := None; p_x := None; p_y := None |}
                    (Some {| skipHistory := Some true |}) initial)) item
        = [welcome;
           {| sc_id := "login"; sc_name := "Designing..."; sc_html := "";
              sc_css := ""; sc_x := 550; sc_y := 50 |}].
Proof.
  assert (wf initial) as Hwf by (split; [vm_compute; lia|constructor]).
  assert (findIndex "login" (live initial) = None) as Hnone by reflexivity.
  split; [exact Hwf|]. split; [exact Hnone|].
  destruct (snapshot_has_placeholder initial 1 2 "login" "Designing..." login
              Hwf Hnone) as (_ & item & Hh & Hs & _).
  exists item. split; [exact Hh|exact Hs].
Defined.

End StoreProperties.

(** * The invocations of a message *)
Section InvocationFacts.
Import ProjectState ToolEvents.
#[local] Arguments find_invocation : simpl never.
Implicit Types (id : string) (name : option string) (m : Message)
  (i x y : ToolInvocation) (l : list ToolInvocation) (d : Deps) (k : nat).

(** The invocation of a message with the given id. *)
Definition lookup_invocation id m : option ToolInvocation :=
  toolInvocations m ≫= fun l => snd <$> find_invocation id l.

Lemma find_invocation_cons id x l :
  find_invocation id (x :: l) =
  if decide (toolCallId x = id) then Some (0%nat, x)
  else prod_map S (λ z, z) <$> find_invocation id l.
Proof. reflexivity. Qed.

Lemma find_invocation_id id l k x :
  find_invocation id l = Some (k, x) → l !! k = Some x ∧ toolCallId x = id.
Proof. intros (? & ? & _)%list_find_Some. done. Qed.

Lemma find_insert_same id l k x y :
  find_invocation id l = Some (k, x) → toolCallId y = id →
  find_invocation id (<[k := y]> l) = Some (k, y).
Proof.
  revert k. induction l as [|z l IH]; intros k; [done|].
  rewrite find_invocation_cons. case_decide as Hz.
  - intros [= <- <-] Hy. change (<[0%nat:=y]> (z :: l)) with (y :: l).
    rewrite find_invocation_cons. by rewrite decide_True.
  - destruct (find_invocation id l) as [[j w]|] eqn:E; [|done].
    cbn [fmap option_fmap option_map prod_map fst snd]. intros [= <- <-] Hy.
    change (<[S j:=y]> (z :: l)) with (z :: <[j:=y]> l).
    rewrite find_invocation_cons, decide_False by done.
    by rewrite (IH j eq_refl Hy).
Qed.

Lemma find_insert_other id l k x y :
  l !! k = Some x → toolCallId x ≠ id → toolCallId y ≠ id →
  find_invocation id (<[k := y]> l) = find_invocation id l.
Proof.
  revert k. induction l as [|z l IH]; intros k; [done|].
  destruct k as [|k].
  - intros [= ->] Hx Hy. change (<[0%nat:=y]> (x :: l)) with (y :: l).
    by rewrite !find_invocation_cons, !decide_False.
  - intros Hk Hx Hy. change (<[S k:=y]> (z :: l)) with (z :: <[k:=y]> l).
    rewrite !find_invocation_cons.
    by rewrite (IH k Hk Hx Hy).
Qed.

Lemma find_push id l y :
  find_invocation id (l ++ [y]) =
  match find_invocation id l with
  | Some r => Some r
  | None => if decide (toolCallId y = id) then Some (length l, y) else None
  end.
Proof.
  induction l as [|z l IH]; cbn [app length].
  - rewrite find_invocation_cons. by case_decide.
  - rewrite !find_invocation_cons.
    destruct (decide (toolCallId z = id)); [done|]. rewrite IH.
    destruct (find_invocation id l) as [[??]|]; cbn; [done|]. by case_decide.
Qed.

Lemma lookup_invocation_id id m i :
  lookup_invocation id m = Some i → toolCallId i = id.
Proof.
  unfold lookup_invocation. destruct (toolInvocations m) as [l|]; [|done]. cbn.
  destruct (find_invocation id l) as [[??]|] eqn:E; [|done].
  apply find_invocation_id in E as [_ ?]. by intros [= ->].
Qed.


Lemma getOrCreateInvocation_unnamed id m i :
  lookup_invocation id m = Some i → getOrCreateInvocation id None m = (m, i).
Proof.
  unfold lookup_invocation, getOrCreateInvocation.
  destruct (toolInvocations m) as [l|]; [|done]. cbn.
  destruct (find_invocation id l) as [[k x]|]; [|done]. cbn. by intros [= ->].
Qed.

Lemma getOrCreateInvocation_named id name m i :
  lookup_invocation id m = Some i → truthy (toolName i) = true →
  getOrCreateInvocation id name m = (m, i).
Proof.
  unfold lookup_invocation, getOrCreateInvocation.
  destruct (toolInvocations m) as [l|]; [|done]. cbn.
  destruct (find_invocation id l) as [[k x]|]; [|done]. cbn. intros [= ->] ->.
  by rewrite andb_false_r.
Qed.

Lemma getOrCreateInvocation_id id name m :
  toolCallId (getOrCreateInvocation id name m).2 = id.
Proof.
  unfold getOrCreateInvocation.
  destruct (toolInvocations m) as [l|]; [|done]. cbn.
  destruct (find_invocation id l) as [[k x]|] eqn:E; [|done]. cbn.
  apply find_invocation_id in E as [_ ?].
  by destruct (truthy name && negb (truthy (toolName x))).
Qed.

Lemma getOrCreateInvocation_other id id' name m :
  id ≠ id' →
  lookup_invocation id (getOrCreateInvocation id' name m).1 = lookup_invocation id m.
Proof.
  intros Hne. unfold lookup_invocation, getOrCreateInvocation.
  destruct (toolInvocations m) as [l|] eqn:El; cbn; [|done].
  destruct (find_invocation id' l) as [[k x]|] eqn:E; cbn.
  - apply find_invocation_id in E as [Hk Hx].
    destruct (truthy name && negb (truthy (toolName x))); cbn; [|by rewrite El].
    erewrite find_insert_other; [done..| |]; cbn; congruence.
  - rewrite find_push. destruct (find_invocation id l) as [[??]|]; [done|].
    by rewrite decide_False.
Qed.

Lemma write_invocation_same id m i y :
  lookup_invocation id m = Some i → toolCallId y = id →
  lookup_invocation id (write_invocation y m) = Some y.
Proof.
  unfold lookup_invocation, write_invocation.
  destruct (toolInvocations m) as [l|]; [|done]. cbn. intros Hi <-.
  destruct (find_invocation (toolCallId y) l) as [[k x]|] eqn:E; [|done].
  by erewrite find_insert_same.
Qed.

Lemma write_invocation_other id m y :
  toolCallId y ≠ id →
  lookup_invocation id (write_invocation y m) = lookup_invocation id m.
Proof.
  intros Hne. unfold lookup_invocation, write_invocation.
  destruct (toolInvocations m) as [l|]; [|done]. cbn.
  destruct (find_invocation (toolCallId y) l) as [[k x]|] eqn:E; [|done].
  apply find_invocation_id in E as [Hk Hx].
  erewrite find_insert_other; [done..|congruence|done].
Qed.

Lemma truthy_Some (n : string) : n ≠ "" → truthy (Some n) = true.
Proof. intros Hn. cbn. by apply negb_true_iff, String.eqb_neq. Qed.

(** The message a chunk leaves: the side effects on the project state and on
    the map do not touch it. *)
Definition message_after (chunk : SSEChunk) m : Message :=
  match chunk with
  | text_delta delta =>
      {| content := content m +:+ delta; toolInvocations := toolInvocations m |}
  | tool_input_start id' name => (getOrCreateInvocation id' (Some name) m).1
  | tool_input_available id' name input =>
      let '(m', i) := getOrCreateInvocation id' (Some name) m in
      write_invocation
        {| toolCallId := toolCallId i; toolName := toolName i; state := st_call;
           args := input; result := result i; errorText := errorText i |} m'
  | tool_output_available id' output =>
      let '(m', i) := getOrCreateInvocation id' None m in
      write_invocation
        {| toolCallId := toolCallId i; toolName := toolName i; state := st_result;
           args := args i; result := output; errorText := errorText i |} m'
  | tool_output_error id' text =>
      let '(m', i) := getOrCreateInvocation id' None m in
      write_invocation
        {| toolCallId := toolCallId i; toolName := toolName i; state := st_error;
           args := args i; result := result i; errorText := Some text |} m'
  | _ => m
  end.

Lemma handleChunk_message now chunk d :
  assistantMessage (handleChunk now chunk d) =
  message_after chunk (assistantMessage d).
Proof.
  destruct chunk as [| |[?|] [?|]| | | | |]; cbn [handleChunk message_after];
    try done.
  - destruct getOrCreateInvocation. by destruct String.eqb.
  - destruct getOrCreateInvocation as [m' i].
    destruct is_tool; [|done]. by destruct (_ ≫= in_id).
  - destruct getOrCreateInvocation as [m' i].
    destruct is_tool, output; try done; by destruct is_tool.
  - destruct getOrCreateInvocation as [m' i]. by destruct is_tool.
Qed.

Lemma invocation_of_after now chunk d id :
  invocation_of id (handleChunk now chunk d) =
  lookup_invocation id (message_after chunk (assistantMessage d)).
Proof. unfold invocation_of. by rewrite handleChunk_message. Qed.

(** A name that is not empty survives every chunk. *)
Lemma toolName_kept_message chunk m id i n :
  lookup_invocation id m = Some i → toolName i = Some n → n ≠ "" →
  ∃ i', lookup_invocation id (message_after chunk m) = Some i'
        ∧ toolName i' = Some n.
Proof.
  intros Hi Hn Hne.
  assert (truthy (toolName i) = true) as Ht by (rewrite Hn; by apply truthy_Some).
  assert (∀ id' name st a r e,
    let '(m', x) := getOrCreateInvocation id' name m in
    ∃ i', lookup_invocation id
            (write_invocation
               {| toolCallId := toolCallId x; toolName := toolName x; state := st x;
                  args := a x; result := r x; errorText := e x |} m') = Some i'
          ∧ toolName i' = Some n) as Hwrite.
  { intros id' name st a r e. destruct (decide (id' = id)) as [->|Hid].
    - rewrite (getOrCreateInvocation_named _ _ _ _ Hi Ht).
      eexists. split.
      + eapply write_invocation_same; [done|]. cbn.
        by eapply lookup_invocation_id.
      + done.
    - pose proof (getOrCreateInvocation_other id id' name m ltac:(done)) as Ho.
      pose proof (getOrCreateInvocation_id id' name m) as Hid'.
      destruct (getOrCreateInvocation id' name m) as [m' x]. cbn in Ho, Hid'.
      exists i. split; [|done].
      rewrite write_invocation_other; [congruence|]. cbn. congruence. }
  destruct chunk as [delta|id' nm|[?|] [?|]|id' nm input|id' output|id' text|?|?];
    cbn [message_after]; eauto.
  - destruct (decide (id' = id)) as [->|Hid].
    + rewrite (getOrCreateInvocation_named _ _ _ _ Hi Ht). eauto.
    + rewrite getOrCreateInvocation_other by done. eauto.
  - specialize (Hwrite id' (Some nm) (λ _, st_call) (λ _, input) result errorText).
    by destruct getOrCreateInvocation.
  - specialize (Hwrite id' None (λ _, st_result) args (λ _, output) errorText).
    by destruct getOrCreateInvocation.
  - specialize (Hwrite id' None (λ _, st_error) args result (λ _, Some text)).
    by destruct getOrCreateInvocation.
Qed.

(** ** One chunk for a call the message already has *)



Lemma handleChunk_output now d id output i :
  invocation_of id d = Some i →
  let d' := handleChunk now (tool_output_available id output) d in
  invocation_of id d' =
    Some {| toolCallId := toolCallId i; toolName := toolName i; state := st_result;
            args := args i; result := output; errorText := errorText i |}
  ∧ project d' =
    match output with
    | Some out =>
        if is_tool "upsertScreen" i then
          setIsDesigning false (setEditingScreenId None
            (upsertScreen now (out_screen out) None (project d)))
        else if is_tool "restoreVersion" i then
          restoreVersion (out_index out) (project d)
        else project d
    | None => project d
    end.
Proof.
  intros Hi. split.
  - rewrite invocation_of_after. cbn [message_after].
    rewrite (getOrCreateInvocation_unnamed _ _ _ Hi).
    eapply write_invocation_same; [done|]. cbn. by eapply lookup_invocation_id.
  - cbn [handleChunk]. rewrite (getOrCreateInvocation_unnamed _ _ _ Hi).
    unfold is_tool. cbn [toolName].
    destruct output as [out|]; repeat case_bool_decide; try done; congruence.
Qed.


End InvocationFacts.

(** * Properties of the chunk handler *)
Section HandlerProperties.
Import ProjectState ToolEvents.
Implicit Types (id : string) (i : ToolInvocation) (d : Deps)
  (chunk : SSEChunk).

Definition login_output : ToolOutput :=
  {| out_screen := login; out_index := NaN |}.

(** A call of upsertScreen that has started. *)
Definition designing : Deps :=
  handleChunk 1 (tool_input_start "call1" "upsertScreen") (fresh initial).

(** The same call after its output has arrived. *)
Definition after_result : Deps :=
  handleChunk 2 (tool_output_available "call1" (Some login_output)) designing.


Definition call1_started : ToolInvocation :=
  {| toolCallId := "call1"; toolName := Some "upsertScreen"; state := st_call;
     args := None; result := None; errorText := None |}.

(** A stream of a text, the input and the output of one upsertScreen call:
    the content is the text, the call ends in [result], the screen is there
    with its html, and the history has one item. *)
Example end_to_end :
  let d :=
    handleChunks
      [(1, text_delta "Hi");
       (2, tool_input_available "call1" "upsertScreen"
             (Some {| in_id := Some "login"; in_name := Some "Login" |}));
       (3, tool_output_available "call1" (Some login_output))]
      (fresh initial) in
  content (assistantMessage d) = "Hi"
  ∧ (state <$> invocation_of "call1" d) = Some st_result
  ∧ live (project d) =
    [welcome;
     {| sc_id := "login"; sc_name := "Login"; sc_html := "<div/>"; sc_css := "";
        sc_x := 550; sc_y := 50 |}]
  ∧ length (history (project d)) = 1%nat
  ∧ editingScreenId (project d) = None.
Proof. vm_compute. done. Qed.


(** The chunk carries the id of the call in its [toolCallId]. *)
Definition references chunk id : Prop :=
  match chunk with
  | tool_input_start id' _ | tool_input_available id' _ _
  | tool_output_available id' _ | tool_output_error id' _ => id' = id
  | _ => False
  end.




















(** A call from its first event to its error, with the input between the
    signal and the error. *)
Definition login_args : ToolInput :=
  {| in_id := Some "login"; in_name := Some "Login" |}.




(** The screens that call leaves: the placeholder, under the name the input
    gave it. *)
Example error_after_input_available :
  live (project
    (handleChunks
       [(1, tool_input_start "call1" "upsertScreen");
        (2, data_editing_start (Some "login") (Some "call1"));
        (3, tool_input_available "call1" "upsertScreen" (Some login_args));
        (4, tool_output_error "call1" "boom")]
       (fresh initial)))
  = [welcome;
     {| sc_id := "login"; sc_name := "Login"; sc_html := ""; sc_css := "";
        sc_x := 550; sc_y := 50 |}].
Proof. vm_compute. reflexivity. Qed.

(** C10. Once the invocation of a call has a name that is not empty, the
    invocation found under that id has the same name after any sequence of
    chunks: the only assignment to [toolName] is guarded by the name being
    absent or empty, and no invocation leaves the message. *)
Theorem toolName_first_wins chunks d id i (n : string) :
  invocation_of id d = Some i → toolName i = Some n → n ≠ "" →
  ∃ i', invocation_of id (handleChunks chunks d) = Some i' ∧ toolName i' = Some n.
Proof.
  revert d i. induction chunks as [|[now chunk] chunks IH]; intros d i Hi Hn Hne;
    cbn [handleChunks]; [eauto|].
  destruct (toolName_kept_message chunk (assistantMessage d) id i n)
    as (i' & Hi' & Hn'); [done..|].
  apply (IH _ i'); [|done..].
  by rewrite invocation_of_after.
Qed.

Lemma toolName_first_wins_witness :
  invocation_of "call1" designing = Some call1_started
  ∧ toolName call1_started = Some "upsertScreen"
  ∧ "upsertScreen" ≠ ""
  ∧ ∃ i', invocation_of "call1"
            (handleChunks
               [(2, tool_input_start "call1" "restoreVersion");
                (3, tool_input_available "call1" "getScreen" None)]
               designing) = Some i'
          ∧ toolName i' = Some "upsertScreen".
Proof.
  assert (invocation_of "call1" designing = Some call1_started) as Hi
    by (vm_compute; reflexivity).
  assert (toolName call1_started = Some "upsertScreen") as Hn by reflexivity.
  assert ("upsertScreen" ≠ "") as Hne by discriminate.
  split; [exact Hi|]. split; [exact Hn|]. split; [exact Hne|].
  exact (toolName_first_wins _ designing "call1" call1_started "upsertScreen"
           Hi Hn Hne).
Defined.

End HandlerProperties.

(** * The pattern of the id extraction *)
Section PatternFacts.
Import Extractor.
Implicit Types (s v ws pre post rest : text) (c : N).

Definition spaces ws : Prop := Forall (λ c, is_space c = true) ws.

(** The strings the regular expression matches from their first character
    on, with the group [v]: the key, white space, a colon, white space, and
    between two quotes a value that is not empty and has no quote. *)
Definition matches s v : Prop :=
  ∃ ws1 ws2 post,
    s = id_key ++ ws1 ++ colon :: ws2 ++ quote :: v ++ quote :: post
    ∧ spaces ws1 ∧ spaces ws2 ∧ v ≠ [] ∧ quote ∉ v.

Lemma trimStart_spec s :
  ∃ ws, s = ws ++ trimStart s ∧ spaces ws
        ∧ match trimStart s with c :: _ => is_space c = false | [] => True end.
Proof.
  induction s as [|c s (ws & Hs & Hws & Hc)]; cbn [trimStart].
  - exists []. split_and!; [done|constructor|done].
  - destruct (is_space c) eqn:E.
    + exists (c :: ws). split_and!; [by rewrite Hs at 1|by constructor|done].
    + exists []. split_and!; [done|constructor|done].
Qed.

Lemma trimStart_app ws c rest :
  spaces ws → is_space c = false → trimStart (ws ++ c :: rest) = c :: rest.
Proof.
  intros Hws Hc. induction Hws as [|c' ws Hc' _ IH]; cbn [app trimStart].
  - by rewrite Hc.
  - by rewrite Hc'.
Qed.

Lemma quoted_value_spec s v :
  quoted_value s = Some v ↔ ∃ post, s = v ++ quote :: post ∧ quote ∉ v.
Proof.
  revert v. induction s as [|c s IH]; intros v; cbn [quoted_value].
  - split; [done|]. intros (post & ? & _). by destruct v.
  - destruct (N.eqb_spec c quote) as [->|Hc].
    + split.
      * intros [= <-]. exists s. split; [done|]. apply not_elem_of_nil.
      * intros (post & Hs & Hv). destruct v as [|c' v]; [done|].
        injection Hs as <- _. destruct Hv. by left.
    + destruct (quoted_value s) as [w|] eqn:E; cbn.
      * split.
        -- intros [= <-]. destruct (proj1 (IH w) eq_refl) as (post & -> & Hw).
           exists post. split; [done|]. by intros [?|?]%elem_of_cons.
        -- intros (post & Hs & Hv). destruct v as [|c' v].
           { injection Hs as -> _. done. }
           injection Hs as <- Hs. f_equal. f_equal.
           assert (Some w = Some v) as [= ->]; [|done].
           apply IH. exists post. split; [done|].
           intros ?. apply Hv. by right.
      * split; [done|]. intros (post & Hs & Hv). destruct v as [|c' v].
        { injection Hs as -> _. done. }
        injection Hs as <- Hs.
        assert (None = Some v) as [=]. apply IH. exists post. split; [done|].
        intros ?. apply Hv. by right.
Qed.

Lemma match_here_spec s v : match_here s = Some v ↔ matches s v.
Proof.
  unfold match_here, matches. split.
  - destruct (startsWith id_key s) eqn:Ek; [|done].
    apply startsWith_true in Ek as [r ->]. rewrite drop_app_length.
    destruct (trimStart_spec r) as (ws1 & Hr & Hws1 & _).
    destruct (trimStart r) as [|c r1]; [done|].
    destruct (N.eqb_spec c colon) as [->|]; [|done].
    destruct (trimStart_spec r1) as (ws2 & Hr1 & Hws2 & _).
    destruct (trimStart r1) as [|c' r2]; [done|].
    destruct (N.eqb_spec c' quote) as [->|]; [|done].
    destruct (quoted_value r2) as [w|] eqn:Ev; [|done].
    destruct w as [|c w]; [done|]. intros [= <-].
    apply quoted_value_spec in Ev as (post & -> & Hv).
    exists ws1, ws2, post. split_and!; [|done..].
    by rewrite Hr, Hr1 at 1.
  - intros (ws1 & ws2 & post & -> & Hws1 & Hws2 & Hne & Hv).
    assert (startsWith id_key
              (id_key ++ ws1 ++ colon :: ws2 ++ quote :: v ++ quote :: post) = true)
      as -> by (apply startsWith_true; eauto).
    rewrite drop_app_length, (trimStart_app ws1 colon) by done.
    rewrite N.eqb_refl, (trimStart_app ws2 quote) by done.
    rewrite N.eqb_refl.
    assert (quoted_value (v ++ quote :: post) = Some v) as ->
      by (apply quoted_value_spec; eauto).
    by destruct v.
Qed.

(** [id_match] returns the group of the match that starts leftmost. *)
Lemma id_match_spec s v :
  id_match s = Some v ↔
  ∃ pre rest, s = pre ++ rest ∧ matches rest v
    ∧ ∀ pre' rest' v', s = pre' ++ rest' → (length pre' < length pre)%nat →
        ¬ matches rest' v'.
Proof.
  revert v. induction s as [|c s IH]; intros v; cbn [id_match].
  - destruct (match_here []) as [w|] eqn:E.
    + split.
      * intros [= ->]. exists [], []. split_and!; [done|by apply match_here_spec|].
        cbn. lia.
      * intros (pre & rest & Hs & Hm & _). symmetry in Hs.
        apply app_eq_nil in Hs as [-> ->]. apply match_here_spec in Hm. congruence.
    + split; [done|]. intros (pre & rest & Hs & Hm & _). symmetry in Hs.
      apply app_eq_nil in Hs as [-> ->]. apply match_here_spec in Hm. congruence.
  - destruct (match_here (c :: s)) as [w|] eqn:E.
    + split.
      * intros [= ->]. exists [], (c :: s).
        split_and!; [done|by apply match_here_spec|]. cbn. lia.
      * intros (pre & rest & Hs & Hm & Hleft). destruct pre as [|c' pre].
        -- cbn in Hs. subst rest. apply match_here_spec in Hm. congruence.
        -- destruct (Hleft [] (c :: s) w); [done|cbn; lia|by apply match_here_spec].
    + rewrite IH. split.
      * intros (pre & rest & -> & Hm & Hleft). exists (c :: pre), rest.
        split_and!; [done..|]. intros pre' rest' v' Hs Hlen.
        destruct pre' as [|c' pre'].
        -- cbn in Hs. subst rest'. intros Hm'%match_here_spec. congruence.
        -- injection Hs as <- Hs. apply (Hleft pre' rest' v' Hs). cbn in Hlen. lia.
      * intros (pre & rest & Hs & Hm & Hleft). destruct pre as [|c' pre].
        -- cbn in Hs. subst rest. apply match_here_spec in Hm. congruence.
        -- injection Hs as <- Hs. exists pre, rest. split_and!; [done..|].
           intros pre' rest' v' Hs' Hlen. apply (Hleft (c :: pre') rest' v');
             [by rewrite Hs'|cbn; lia].
Qed.

End PatternFacts.

(** * Properties of the id extraction *)
Section ExtractorProperties.
Import Extractor.
Implicit Types (id : string) (delta buffer : text) (st : State)
  (deltas : list (string * text)).

(** A partial input with an id, then a second id in a later delta. *)
Definition login_input : text :=
  units "{" ++ quote :: units "id" ++ quote :: units ": " ++ quote :: units "log".
Definition login_rest : text :=
  units "in" ++ quote :: units "," ++ quote :: units "id" ++ quote :: units ":"
  ++ quote :: units "other" ++ [quote].

Example id_match_login : id_match (login_input ++ login_rest) = Some (units "login").
Proof. reflexivity. Qed.

Example id_match_open_value : id_match login_input = None.
Proof. reflexivity. Qed.

(** The id a call shows first: the group of the leftmost match in the text
    accumulated for the call when that text first has a match. *)
Fixpoint first_id id buffer deltas : option text :=
  match deltas with
  | [] => None
  | (id', delta) :: rest =>
      if decide (id' = id) then
        match id_match (buffer ++ delta) with
        | Some v => Some v
        | None => first_id id (buffer ++ delta) rest
        end
      else first_id id buffer rest
  end.

Definition signal id (v : option text) : list EditingStart :=
  match v with
  | Some v => [{| screenId := v; toolCallId := id |}]
  | None => []
  end.

Definition buffer_of id st : text := default [] (upsertInputBuffers st !! id).

Lemma signals_for_app id e st st' :
  written st' = written st ++ [e] →
  signals_for id st' =
  signals_for id st ++ (if decide (toolCallId e = id) then [e] else []).
Proof. unfold signals_for. intros ->. by rewrite filter_app. Qed.

Lemma onUpsertInputDelta_other id id' delta st :
  id' ≠ id →
  let st' := onUpsertInputDelta id' delta st in
  buffer_of id st' = buffer_of id st
  ∧ (id ∈ sentEditingStart st' ↔ id ∈ sentEditingStart st)
  ∧ signals_for id st' = signals_for id st.
Proof.
  intros Hne. unfold onUpsertInputDelta, buffer_of, signals_for.
  case_bool_decide; [|destruct id_match]; cbn;
    rewrite lookup_insert_ne by done; (split_and!; [done| |]); try done.
  - rewrite elem_of_union, elem_of_singleton.
    split; [intros [?|?]; [done|congruence]|by left].
  - rewrite filter_app, filter_cons, filter_nil. cbn.
    rewrite decide_False by done. by rewrite app_nil_r.
Qed.

Lemma onUpsertInputDelta_sent id delta st :
  id ∈ sentEditingStart st →
  let st' := onUpsertInputDelta id delta st in
  id ∈ sentEditingStart st' ∧ written st' = written st.
Proof.
  intros Hin. unfold onUpsertInputDelta. by rewrite bool_decide_eq_true_2.
Qed.

Lemma onUpsertInputDelta_fresh id delta st :
  id ∉ sentEditingStart st →
  let st' := onUpsertInputDelta id delta st in
  let updated := buffer_of id st ++ delta in
  buffer_of id st' = updated
  ∧ match id_match updated with
    | Some v =>
        id ∈ sentEditingStart st'
        ∧ written st' = written st ++ [{| screenId := v; toolCallId := id |}]
    | None => (id ∉ sentEditingStart st') ∧ written st' = written st
    end.
Proof.
  intros Hin. unfold onUpsertInputDelta, buffer_of.
  rewrite bool_decide_eq_false_2 by done.
  destruct id_match; cbn; rewrite lookup_insert_eq; split_and!; try done.
  rewrite elem_of_union, elem_of_singleton. by right.
Qed.

(** Once the call is in [sentEditingStart], nothing more is written for it. *)
Lemma signals_latched id deltas st :
  id ∈ sentEditingStart st →
  signals_for id (onDeltas deltas st) = signals_for id st.
Proof.
  revert st. induction deltas as [|[id' delta] deltas IH]; intros st Hin;
    cbn [onDeltas]; [done|].
  destruct (decide (id' = id)) as [->|Hne].
  - destruct (onUpsertInputDelta_sent id delta st Hin) as [Hin' Hw].
    rewrite IH by done. unfold signals_for. by rewrite Hw.
  - destruct (onUpsertInputDelta_other id id' delta st Hne) as (_ & Hin' & Hs).
    rewrite IH by by apply Hin'. done.
Qed.

Lemma signals_first id deltas st :
  id ∉ sentEditingStart st →
  signals_for id (onDeltas deltas st) =
  signals_for id st ++ signal id (first_id id (buffer_of id st) deltas).
Proof.
  revert st. induction deltas as [|[id' delta] deltas IH]; intros st Hin;
    cbn [onDeltas first_id].
  { by rewrite app_nil_r. }
  case_decide as Hid.
  - subst id'.
    destruct (onUpsertInputDelta_fresh id delta st Hin) as [Hb Hm].
    destruct (id_match (buffer_of id st ++ delta)) as [v|].
    + destruct Hm as [Hin' Hw]. rewrite signals_latched by done.
      rewrite (signals_for_app id _ st _ Hw). cbn. by rewrite decide_True.
    + destruct Hm as [Hin' Hw]. rewrite IH by done. rewrite Hb.
      unfold signals_for. by rewrite Hw.
  - destruct (onUpsertInputDelta_other id id' delta st Hid) as (Hb & Hin' & Hs).
    rewrite IH by (by rewrite Hin'). by rewrite Hb, Hs.
Qed.

Lemma first_id_app id buffer deltas more v :
  first_id id buffer deltas = Some v →
  first_id id buffer (deltas ++ more) = Some v.
Proof.
  revert buffer. induction deltas as [|[id' delta] deltas IH]; intros buffer;
    cbn [first_id app]; [done|].
  case_decide; [|by apply IH]. destruct id_match; [done|by apply IH].
Qed.

Lemma onDeltas_app deltas more st :
  onDeltas (deltas ++ more) st = onDeltas more (onDeltas deltas st).
Proof.
  revert st. induction deltas as [|[??] ? IH]; intros st; cbn; [done|apply IH].
Qed.

(** C7. For every call and every sequence of deltas of a request: what is
    written for the call is nothing, or one signal whose screen id is the
    group of the leftmost match in the text accumulated for the call at the
    first delta after which that text has a match; at most one signal is
    written; once one is written, no further delta adds or changes a signal
    of the call. The match is that of the pattern: the id key in quotes,
    white space, a colon, white space, and a quoted value that is not empty
    and holds no quote. *)
Theorem early_signal_once id deltas :
  let st := onDeltas deltas initial in
  signals_for id st = signal id (first_id id [] deltas)
  ∧ (length (signals_for id st) ≤ 1)%nat
  ∧ (∀ more, signals_for id st ≠ [] →
       signals_for id (onDeltas more st) = signals_for id st)
  ∧ (∀ s v, id_match s = Some v ↔
       ∃ pre rest, s = pre ++ rest ∧ matches rest v
         ∧ ∀ pre' rest' v', s = pre' ++ rest' →
             (length pre' < length pre)%nat → ¬ matches rest' v').
Proof.
  intros st.
  assert (∀ deltas, signals_for id (onDeltas deltas initial)
                    = signal id (first_id id [] deltas)) as Hfirst.
  { intros ds. rewrite signals_first; [done|]. apply not_elem_of_empty. }
  split_and!.
  - apply Hfirst.
  - subst st. rewrite Hfirst. destruct first_id; cbn; lia.
  - intros more Hne. subst st. rewrite <- onDeltas_app, !Hfirst.
    rewrite Hfirst in Hne. destruct (first_id id [] deltas) as [v|] eqn:E; [|done].
    by rewrite (first_id_app _ _ _ more v E).
  - apply id_match_spec.
Qed.

(** The deltas of the example: the id is complete after the second delta,
    and the third one shows another id. *)
Example early_signal_login :
  written (onDeltas [("call1", login_input); ("call1", units "in" ++ [quote]);
                     ("call1", drop 3 login_rest)] initial)
  = [{| screenId := units "login"; toolCallId := "call1" |}].
Proof. vm_compute. reflexivity. Qed.

End ExtractorProperties.

(** * The frame loop *)
Section FrameFacts.
Import Sse.
Implicit Types (buffer b t s p : text) (chunks : list (list Byte.byte)).

Lemma drain_unfold buffer :
  drain buffer =
  match cut buffer with
  | no_separator => ([], buffer, false)
  | skipped b => drain b
  | finished b => ([], b, true)
  | event data b =>
      let '(payloads, b, streamDone) := drain b in
      (data :: payloads, b, streamDone)
  end.
Proof.
  rewrite drain_equation_1. unfold inspect. cbn.
  destruct (cut buffer); reflexivity.
Qed.

Lemma startsWith_app p s t :
  startsWith p s = true → startsWith p (s ++ t) = true.
Proof.
  rewrite !startsWith_true. intros [r ->]. exists (r ++ t). by rewrite app_assoc.
Qed.

Lemma startsWith_app_false p s t :
  startsWith p s = false → (length p ≤ length s)%nat →
  startsWith p (s ++ t) = false.
Proof.
  revert s. induction p as [|a p IH]; intros [|c s]; cbn [startsWith length app];
    try done; try lia.
  rewrite !andb_false_iff. intros [?|?] ?; [by left|right]. apply IH; [done|lia].
Qed.

(** A separator that is in the buffer is found at the same place when more
    text has arrived. *)
Lemma indexOf_app needle s t i :
  indexOf needle s = Some i → indexOf needle (s ++ t) = Some i.
Proof.
  revert i. induction s as [|a s IH]; intros i; cbn [indexOf app].
  - destruct (startsWith needle []) eqn:E; [|done]. intros [= <-].
    apply (startsWith_app _ _ t) in E. cbn [app] in E.
    destruct t; cbn [indexOf]; by rewrite E.
  - destruct (startsWith needle (a :: s)) eqn:E.
    + intros [= <-]. apply (startsWith_app _ _ t) in E. cbn [app] in E.
      by rewrite E.
    + destruct (indexOf needle s) as [j|] eqn:Ej; [|done].
      cbn. intros [= <-].
      destruct (indexOf_Some _ _ _ Ej) as (pre & post & Hs & _).
      apply (startsWith_app_false _ _ t) in E.
      * cbn [app] in E. by rewrite E, (IH j eq_refl).
      * rewrite Hs, !length_cons, !length_app. lia.
Qed.

Lemma cut_app buffer t :
  cut (buffer ++ t) =
  match cut buffer with
  | no_separator => cut (buffer ++ t)
  | skipped b => skipped (b ++ t)
  | finished b => finished (b ++ t)
  | event data b => event data (b ++ t)
  end.
Proof.
  unfold cut at 2. destruct (indexOf separator buffer) as [i|] eqn:E; [|done].
  unfold cut. rewrite (indexOf_app _ _ t _ E).
  apply indexOf_separator_bound in E.
  rewrite take_app_le, drop_app_le by lia.
  destruct (dataLines (take i buffer)); [done|]. by case_bool_decide.
Qed.

(** Text that arrives later changes nothing of what the inner loop has done:
    the loop on the longer buffer does the same passes and goes on from the
    buffer the shorter run left. *)
Lemma drain_app buffer t :
  drain (buffer ++ t) =
  let '(payloads, b, streamDone) := drain buffer in
  if streamDone then (payloads, b ++ t, true)
  else let '(payloads', b', streamDone') := drain (b ++ t) in
       (payloads ++ payloads', b', streamDone').
Proof.
  remember (length buffer) as n eqn:Hn. revert buffer Hn.
  induction (lt_wf n) as [n _ IH]. intros buffer ->.
  rewrite (drain_unfold (buffer ++ t)), (drain_unfold buffer), cut_app.
  pose proof (cut_shorter buffer) as Hlt.
  destruct (cut buffer) as [|b|b|data b]; cbn [rest_of] in Hlt.
  - rewrite <- drain_unfold. by destruct (drain (buffer ++ t)) as [[??]?].
  - apply (IH (length b)); [by apply Hlt|done].
  - done.
  - rewrite (IH (length b) (Hlt ltac:(done)) b eq_refl).
    destruct (drain b) as [[ps b'] [|]]; [done|].
    by destruct (drain (b' ++ t)) as [[??]?].
Qed.

(** The inner loop stops, short of the sentinel, on a buffer without a
    separator. *)
Lemma drain_rest buffer :
  let '(_, b, streamDone) := drain buffer in
  streamDone = false → cut b = no_separator.
Proof.
  remember (length buffer) as n eqn:Hn. revert buffer Hn.
  induction (lt_wf n) as [n _ IH]. intros buffer ->.
  rewrite (drain_unfold buffer).
  pose proof (cut_shorter buffer) as Hlt.
  destruct (cut buffer) as [|b|b|data b] eqn:E; cbn [rest_of] in Hlt.
  - done.
  - apply (IH (length b)); [by apply Hlt|done].
  - done.
  - specialize (IH (length b) (Hlt ltac:(done)) b eq_refl).
    by destruct (drain b) as [[??]?].
Qed.

(** The decoder reads byte by byte: where a chunk ends is nothing to it. *)
Lemma decode_app st (a b : list Byte.byte) :
  TextDecoder.decode st (a ++ b) =
  let '(st, out) := TextDecoder.decode st a in
  let '(st, out') := TextDecoder.decode st b in
  (st, out ++ out').
Proof.
  revert st. induction a as [|x a IH]; intros st; cbn [TextDecoder.decode app].
  - by destruct (TextDecoder.decode st b).
  - destruct (TextDecoder.step st x) as [st1 o1]. rewrite IH.
    destruct (TextDecoder.decode st1 a) as [st2 o2].
    destruct (TextDecoder.decode st2 b) as [st3 o3].
    by rewrite app_assoc.
Qed.

Lemma strip_cr_app s t : strip_cr (s ++ t) = strip_cr s ++ strip_cr t.
Proof. apply filter_app. Qed.

(** The loop over the chunks does what the inner loop does on the whole
    text at once. *)
Lemma read_loop_whole chunks decoder buffer :
  cut buffer = no_separator →
  read_loop chunks decoder buffer =
  (drain (buffer ++ strip_cr (TextDecoder.decode decoder (concat chunks)).2)).1.1.
Proof.
  revert decoder buffer.
  induction chunks as [|value rest IH]; intros decoder buffer Hcut;
    cbn [read_loop concat].
  - cbn. rewrite app_nil_r, drain_unfold. by rewrite Hcut.
  - rewrite decode_app.
    destruct (TextDecoder.decode decoder value) as [decoder1 s].
    destruct (TextDecoder.decode decoder1 (concat rest)) as [decoder2 s'] eqn:E.
    cbn [snd]. rewrite strip_cr_app, app_assoc, (drain_app (buffer ++ strip_cr s)).
    pose proof (drain_rest (buffer ++ strip_cr s)) as Hrest.
    destruct (drain (buffer ++ strip_cr s)) as [[ps b] [|]]; [done|].
    rewrite (IH decoder1 b (Hrest eq_refl)), E. cbn [snd].
    by destruct (drain (b ++ strip_cr s')) as [[??]?].
Qed.

End FrameFacts.

(** * Properties of the frame loop *)
Section FrameProperties.
Import Sse.
Implicit Types (chunks : list (list Byte.byte)).

(** C3. Two sequences of chunks with the same bytes give the same payloads
    in the same order, and so the same calls to [onChunk], [onError] and
    [onDone], whatever [JSON.parse] and the handler do with a payload; in
    particular the
    chunks give what their bytes give as one chunk and what they give a byte
    at a time. *)
Theorem parseSSEStream_chunking chunks chunks' :
  concat chunks = concat chunks' →
  parseSSEStream chunks = parseSSEStream chunks'
  ∧ parseSSEStream chunks = parseSSEStream [concat chunks]
  ∧ parseSSEStream chunks = parseSSEStream ((λ b, [b]) <$> concat chunks)
  ∧ ∀ (chunk : Type) (JSON_parse : text → option chunk) (throws : chunk → bool),
      calls JSON_parse throws chunks = calls JSON_parse throws chunks'.
Proof.
  intros E.
  assert (∀ cs cs', concat cs = concat cs' → parseSSEStream cs = parseSSEStream cs')
    as Hsame.
  { intros cs cs' Hc. unfold parseSSEStream.
    rewrite !read_loop_whole by reflexivity. by rewrite Hc. }
  split_and!.
  - by apply Hsame.
  - apply Hsame. cbn. by rewrite app_nil_r.
  - apply Hsame. generalize (concat chunks). clear.
    intros l. induction l as [|b l IH]; [done|]. cbn. by f_equal.
  - intros chunk JSON_parse throws. unfold calls. by rewrite (Hsame _ _ E).
Qed.

(** A stream of two events and the sentinel, with a two-byte character,
    line ends with carriage returns, and text after the sentinel. *)
Definition sample : list Byte.byte :=
  bytes "data: " ++ [Byte.xc3; Byte.xa9; Byte.x0d; Byte.x0a; Byte.x0d; Byte.x0a]
  ++ bytes ("event: x" +:+ nl +:+ "data:a" +:+ nl +:+ "data:  b" +:+ nl +:+ nl
            +:+ ": ping" +:+ nl +:+ nl
            +:+ "data: [DONE]" +:+ nl +:+ nl +:+ "data: late" +:+ nl +:+ nl).

Example parseSSEStream_sample :
  parseSSEStream [sample] = [[233%N]; units ("a" +:+ nl +:+ "b")].
Proof. vm_compute. reflexivity. Qed.

(** The decoder on a character of four bytes, on a byte that starts no
    character, and on a byte order mark. *)
Example decode_surrogates :
  (TextDecoder.decode TextDecoder.initial
     [Byte.xf0; Byte.x9f; Byte.x98; Byte.x80]).2 = [0xD83D; 0xDE00]%N.
Proof. reflexivity. Qed.

Example decode_replaces :
  (TextDecoder.decode TextDecoder.initial [Byte.xc3; Byte.x41; Byte.xff]).2
  = [0xFFFD; 0x41; 0xFFFD]%N.
Proof. reflexivity. Qed.

Example decode_drops_mark :
  (TextDecoder.decode TextDecoder.initial
     [Byte.xef; Byte.xbb; Byte.xbf; Byte.x41; Byte.xef; Byte.xbb; Byte.xbf]).2
  = [0x41; 0xFEFF]%N.
Proof. reflexivity. Qed.

(** The same bytes cut inside the character, inside the separator and
    inside a line. *)
Definition sample_cut : list (list Byte.byte) :=
  [take 7 sample; take 3 (drop 7 sample); take 12 (drop 10 sample);
   drop 22 sample].

Lemma parseSSEStream_chunking_witness :
  concat sample_cut = concat [sample]
  ∧ parseSSEStream sample_cut = parseSSEStream [sample]
  ∧ parseSSEStream sample_cut = parseSSEStream ((λ b, [b]) <$> concat sample_cut).
Proof.
  assert (concat sample_cut = concat [sample]) as H by (vm_compute; reflexivity).
  split; [exact H|].
  destruct (parseSSEStream_chunking sample_cut [sample] H) as (H1 & _ & H3 & _).
  split; [exact H1|exact H3].
Defined.

End FrameProperties.

(** * More of the project state *)
Section StoreInvariants.
Import ProjectState.
Implicit Types (st : State) (l : list Screen) (item : HistoryItem)
  (screen : PartialScreen) (options : option Options) (index : number) (k : nat)
  (id : string).

(** [screens.map(s => s.id)] *)
Definition ids l : list string := sc_id <$> l.

Lemma list_find_insert_same {A} (P : A → Prop) `{∀ x, Decision (P x)}
    (l : list A) k x y :
  list_find P l = Some (k, x) → P y → list_find P (<[k := y]> l) = Some (k, y).
Proof.
  intros (Hk & _ & Hleast)%list_find_Some Hy. apply list_find_Some. split_and!.
  - apply list_lookup_insert_eq. by eapply lookup_lt_Some.
  - done.
  - intros j z Hj Hlt. rewrite list_lookup_insert_ne in Hj by lia. eauto.
Qed.

Lemma findIndex_None id l : findIndex id l = None ↔ id ∉ ids l.
Proof.
  unfold findIndex, ids. rewrite list_find_None, Forall_forall, list_elem_of_fmap.
  split.
  - intros Hl (s & -> & Hs). by apply (Hl s).
  - intros Hn s Hs ?. apply Hn. by exists s.
Qed.

Lemma findIndex_push id l s :
  findIndex id l = None → sc_id s = id →
  findIndex id (l ++ [s]) = Some (length l, s).
Proof.
  intros Hn Hs. unfold findIndex in *. rewrite list_find_app_r by done.
  cbn. by rewrite decide_True.
Qed.

Lemma ids_insert_merge id l k old screen :
  findIndex id l = Some (k, old) → p_id screen = id →
  ids (<[k := merge old screen]> l) = ids l.
Proof.
  intros (Hk & Hid & _)%list_find_Some Hp. unfold ids.
  rewrite list_fmap_insert. apply list_insert_id.
  rewrite list_lookup_fmap, Hk. cbn. congruence.
Qed.

(** The ids after an upsert. *)
Lemma ids_upsertScreen now screen options st :
  (screens st < length (heap st))%nat →
  ids (live (upsertScreen now screen options st)) =
  if decide (p_id screen ∈ ids (live st)) then ids (live st)
  else ids (live st) ++ [p_id screen].
Proof.
  intros Hs. rewrite live_upsertScreen by done.
  destruct (findIndex (p_id screen) (live st)) as [[k old]|] eqn:E.
  - rewrite decide_True.
    + by eapply ids_insert_merge.
    + apply list_find_Some in E as (Hk & Hid & _). unfold ids.
      apply list_elem_of_fmap. exists old. split; [done|].
      by eapply list_elem_of_lookup_2.
  - apply findIndex_None in E. rewrite decide_False by done.
    unfold ids. by rewrite fmap_app.
Qed.

(** The item a recorded upsert pushes holds the screens as they were. *)
Lemma snapshot_upsertScreen now screen options st :
  wf st → records_history options = true →
  snapshot (upsertScreen now screen options st)
    {| timestamp := now; hi_screens := length (heap st) |} = live st.
Proof.
  intros Hwf Er. unfold upsertScreen. rewrite Er.
  set (st1 := push_snapshot now st).
  set (item := {| timestamp := now; hi_screens := length (heap st) |}).
  assert (wf st1) as Hwf1 by by apply wf_push_snapshot.
  assert (snapshot st1 item = live st) as Hs by apply deref_app_new.
  assert (history st1 !! length (history st) = Some item) as Hl
    by (cbn; by apply list_lookup_middle).
  destruct (findIndex (p_id screen) (live st1)) as [[k old]|].
  - by destruct (keeps_history_set_live (<[k := merge old screen]> (live st1))
                   st1 Hwf1 _ _ Hl) as [_ ->].
  - by destruct (keeps_history_set_live
                   (live st1 ++ [create (maxX (live st1)) screen])
                   st1 Hwf1 _ _ Hl) as [_ ->].
Qed.

(** A property of every array of screens the state can show: the one
    [screens.value] refers to and those of the history items. *)
Definition every_version (P : list Screen → Prop) st : Prop :=
  P (live st) ∧ ∀ i item, history st !! i = Some item → P (snapshot st item).

Lemma every_version_upsertScreen (P : list Screen → Prop) now screen options st :
  wf st → P (live (upsertScreen now screen options st)) →
  every_version P st → every_version P (upsertScreen now screen options st).
Proof.
  intros Hwf Hnew [Hlive Hhist]. split; [done|].
  intros i item. rewrite history_upsertScreen.
  pose proof (keeps_history_upsertScreen now screen options st Hwf) as Hk.
  destruct (records_history options) eqn:Er.
  - intros [Hi|[_ Hi]]%lookup_app_Some.
    + destruct (Hk i item Hi) as [_ ->]. eauto.
    + destruct (i - length (history st))%nat; [|done]. injection Hi as <-.
      by rewrite snapshot_upsertScreen.
  - intros Hi. destruct (Hk i item Hi) as [_ ->]. eauto.
Qed.

Lemma every_version_restoreVersion (P : list Screen → Prop) index st :
  wf st → every_version P st → every_version P (restoreVersion index st).
Proof.
  intros Hwf [Hlive Hhist].
  pose proof (keeps_history_restoreVersion index st Hwf) as Hk.
  assert (history (restoreVersion index st) = history st) as Hh.
  { unfold restoreVersion. by destruct (history_at st index). }
  split.
  - destruct (history_at st index) as [item|] eqn:E.
    + rewrite (live_restoreVersion _ _ _ E). unfold history_at in E.
      destruct (array_index index) as [i|]; [|done]. cbn in E. eauto.
    + unfold restoreVersion. by rewrite E.
  - intros i item. rewrite Hh. intros Hi. destruct (Hk i item Hi) as [_ ->]. eauto.
Qed.

(** What holds of the welcome screen and is kept by an upsert holds of every
    version of every state the module reaches. *)
Lemma every_version_reachable (P : list Screen → Prop) st :
  P [welcome] →
  (∀ now screen options st,
     wf st → P (live st) → P (live (upsertScreen now screen options st))) →
  reachable st → every_version P st.
Proof.
  intros Hinit Hstep. induction 1 as [|now screen options st Hr IH| | |].
  - split; [done|]. by intros i item ?.
  - apply every_version_upsertScreen; [by apply reachable_wf| |done].
    apply Hstep; [by apply reachable_wf|apply IH].
  - by apply every_version_restoreVersion; [apply reachable_wf|].
  - done.
  - done.
Qed.

Lemma unique_ids_upsertScreen now screen options st :
  wf st → NoDup (ids (live st)) →
  NoDup (ids (live (upsertScreen now screen options st))).
Proof.
  intros Hwf Hlive. rewrite ids_upsertScreen by apply Hwf. case_decide; [done|].
  apply NoDup_app. split_and!; [done| |apply NoDup_singleton].
  intros x Hx ->%list_elem_of_singleton. done.
Qed.

Lemma unique_ids_reachable st :
  reachable st → every_version (λ l, NoDup (ids l)) st.
Proof.
  apply every_version_reachable.
  - apply NoDup_singleton.
  - apply unique_ids_upsertScreen.
Qed.

Lemma first_id_upsertScreen now screen options st id :
  wf st → ids (live st) !! 0%nat = Some id →
  ids (live (upsertScreen now screen options st)) !! 0%nat = Some id.
Proof.
  intros Hwf Hlive. rewrite ids_upsertScreen by apply Hwf. case_decide; [done|].
  by apply lookup_app_l_Some.
Qed.

Lemma maxX_fold l (z : Z) :
  z ≤ fold_left (λ max s, Z.max max (sc_x s + 400)) l z
  ∧ ∀ s, s ∈ l → sc_x s + 400 ≤ fold_left (λ max s, Z.max max (sc_x s + 400)) l z.
Proof.
  revert z. induction l as [|a l IH]; intros z; cbn [fold_left].
  - split; [lia|]. by intros s ?%elem_of_nil.
  - destruct (IH (Z.max z (sc_x a + 400))) as [Hz Hl]. split; [lia|].
    intros s [->|Hs]%elem_of_cons; [lia|by apply Hl].
Qed.

Lemma merge_merge old screen : merge (merge old screen) screen = merge old screen.
Proof.
  unfold merge. cbn.
  by destruct (p_name screen), (p_html screen), (p_css screen), (p_x screen),
    (p_y screen).
Qed.

Lemma merge_create mx screen : merge (create mx screen) screen = create mx screen.
Proof.
  unfold merge, create. cbn.
  by destruct (p_name screen), (p_html screen), (p_css screen), (p_x screen),
    (p_y screen).
Qed.

(** What [findIndex] gives for the id of an upsert after it. *)
Lemma findIndex_upsertScreen now screen options st :
  (screens st < length (heap st))%nat →
  findIndex (p_id screen) (live (upsertScreen now screen options st)) =
  match findIndex (p_id screen) (live st) with
  | Some (k, old) => Some (k, merge old screen)
  | None => Some (length (live st), create (maxX (live st)) screen)
  end.
Proof.
  intros Hs. rewrite live_upsertScreen by done.
  destruct (findIndex (p_id screen) (live st)) as [[k old]|] eqn:E.
  - by apply (list_find_insert_same _ _ _ old).
  - by apply findIndex_push.
Qed.

Lemma upsertScreen_valid now screen options st :
  (screens st < length (heap st))%nat →
  (screens (upsertScreen now screen options st)
   < length (heap (upsertScreen now screen options st)))%nat.
Proof.
  intros Hs. unfold upsertScreen.
  destruct (records_history options), findIndex as [[??]|]; cbn;
    rewrite length_insert, ?length_app; lia.
Qed.

(** X1. In every state the module reaches from the initial one, no two
    screens of [screens.value] have the same id, and no two screens of the
    array of any history item have. *)
Theorem screen_ids_unique st :
  reachable st →
  NoDup (sc_id <$> live st)
  ∧ ∀ i item, history st !! i = Some item → NoDup (sc_id <$> snapshot st item).
Proof. apply unique_ids_reachable. Qed.

Lemma screen_ids_unique_witness :
  reachable with_login ∧ NoDup (sc_id <$> live with_login).
Proof.
  assert (reachable with_login) as H by apply reach_upsertScreen, reach_initial.
  split; [exact H|]. exact (proj1 (screen_ids_unique with_login H)).
Defined.

(** X2. In every state the module reaches, [screens.value] starts with a
    screen that has the id of the welcome screen, and so does the array of
    every history item; the list of screens is thus never empty. *)
Theorem welcome_stays st :
  reachable st →
  (sc_id <$> live st) !! 0%nat = Some "welcome"
  ∧ ∀ i item, history st !! i = Some item →
      (sc_id <$> snapshot st item) !! 0%nat = Some "welcome".
Proof.
  apply (every_version_reachable (λ l, ids l !! 0%nat = Some "welcome")).
  - done.
  - intros. by apply first_id_upsertScreen.
Qed.

Lemma welcome_stays_witness :
  reachable with_login ∧ (sc_id <$> live with_login) !! 0%nat = Some "welcome".
Proof.
  assert (reachable with_login) as H by apply reach_upsertScreen, reach_initial.
  split; [exact H|]. exact (proj1 (welcome_stays with_login H)).
Defined.

(** X3. An upsert leaves the ids of the screens and their order as they
    are when the id is there, and adds the id at the end when it is not;
    every screen with another id stays at its place, unchanged. *)
Theorem upsertScreen_keeps_screens now screen options st :
  (screens st < length (heap st))%nat →
  let st' := upsertScreen now screen options st in
  (sc_id <$> live st') =
    (if decide (p_id screen ∈ sc_id <$> live st) then sc_id <$> live st
     else (sc_id <$> live st) ++ [p_id screen])
  ∧ ∀ j s, live st !! j = Some s → sc_id s ≠ p_id screen → live st' !! j = Some s.
Proof.
  intros Hs st'. split; [by apply ids_upsertScreen|].
  intros j s Hj Hne. subst st'. rewrite live_upsertScreen by done.
  destruct (findIndex (p_id screen) (live st)) as [[k old]|] eqn:E.
  - apply list_find_Some in E as (Hk & Hid & _).
    rewrite list_lookup_insert_ne; [done|]. intros ->. congruence.
  - by apply lookup_app_l_Some.
Qed.

Lemma upsertScreen_keeps_screens_witness :
  (screens initial < length (heap initial))%nat
  ∧ (sc_id <$> live with_login) = ["welcome"; "login"]
  ∧ live with_login !! 0%nat = Some welcome.
Proof.
  assert (screens initial < length (heap initial))%nat as H by (cbn; lia).
  destruct (upsertScreen_keeps_screens 1 login None initial H) as [Hids Hkeep].
  split; [exact H|]. split; [exact Hids|].
  apply Hkeep; [reflexivity|discriminate].
Defined.

(** X4. An upsert that records history can be undone: the item it pushes
    is the last of the history, and restoring that subscript right after the
    upsert brings back the screens as they were before it. *)
Theorem upsertScreen_undo now screen options st :
  wf st → records_history options = true →
  let st' := upsertScreen now screen options st in
  let last := of_int (Z.of_nat (length (history st))) in
  history_at st' last
    = Some {| timestamp := now; hi_screens := length (heap st) |}
  ∧ live (restoreVersion last st') = live st.
Proof.
  intros Hwf Er st' last.
  assert (history_at st' last
          = Some {| timestamp := now; hi_screens := length (heap st) |}) as Hat.
  { unfold history_at, last.
    assert (array_index (of_int (Z.of_nat (length (history st))))
            = Some (length (history st))) as -> by (apply array_index_Some; by eexists).
    cbn. subst st'. rewrite history_upsertScreen, Er. by apply list_lookup_middle. }
  split; [done|].
  rewrite (live_restoreVersion _ _ _ Hat). by apply snapshot_upsertScreen.
Qed.

Lemma upsertScreen_undo_witness :
  wf initial ∧ records_history None = true
  ∧ live (restoreVersion (of_int 0) with_login) = [welcome].
Proof.
  assert (wf initial) as H by (split; [cbn; lia|constructor]).
  split; [exact H|]. split; [reflexivity|].
  exact (proj2 (upsertScreen_undo 1 login None initial H eq_refl)).
Defined.

Lemma maxX_bound l (z bound : Z) :
  z ≤ bound → Forall (λ s, sc_x s + 400 ≤ bound) l →
  fold_left (λ max s, Z.max max (sc_x s + 400)) l z ≤ bound.
Proof.
  revert z. induction l as [|a l IH]; intros z Hz Hl; cbn [fold_left]; [done|].
  apply Forall_cons in Hl as [Ha Hl]. apply IH; [lia|done].
Qed.

(** X5. Where the x of every screen lies between -2^53 and 2^53 - 450, so
    that the sums of the code are exact: a screen with a new id and no
    coordinates is added after the others at y = 50 and to the right of every
    screen; its x is at least 450 more than the x of each, at least 50 and at
    most 2^53, and 50 when there is no screen. *)
Theorem upsertScreen_places_right now screen options st :
  (screens st < length (heap st))%nat →
  Forall (λ s, - 2 ^ 53 ≤ sc_x s ≤ 2 ^ 53 - 450) (live st) →
  findIndex (p_id screen) (live st) = None →
  p_x screen = None → p_y screen = None →
  ∃ new, live (upsertScreen now screen options st) = live st ++ [new]
    ∧ sc_id new = p_id screen
    ∧ sc_y new = 50
    ∧ 50 ≤ sc_x new ≤ 2 ^ 53
    ∧ (live st = [] → sc_x new = 50)
    ∧ ∀ s, s ∈ live st → sc_x s + 450 ≤ sc_x new.
Proof.
  intros Hs Hrange Hfind Hx Hy. rewrite live_upsertScreen, Hfind by done.
  eexists. split; [done|]. cbn. rewrite Hx, Hy. cbn.
  destruct (maxX_fold (live st) 0) as [H0 Hall].
  assert (maxX (live st) ≤ 2 ^ 53 - 50) as Hmax.
  { apply maxX_bound; [lia|]. eapply Forall_impl; [exact Hrange|].
    cbn. intros s ?. lia. }
  unfold maxX in *.
  split_and!; [done|done|lia|lia| |].
  - by intros ->.
  - intros s Hin. specialize (Hall s Hin). lia.
Qed.

Lemma upsertScreen_places_right_witness :
  (screens initial < length (heap initial))%nat
  ∧ Forall (λ s, - 2 ^ 53 ≤ sc_x s ≤ 2 ^ 53 - 450) (live initial)
  ∧ findIndex (p_id login) (live initial) = None
  ∧ ∃ new, live with_login = [welcome; new] ∧ sc_y new = 50 ∧ 550 ≤ sc_x new.
Proof.
  assert (screens initial < length (heap initial))%nat as H by (cbn; lia).
  assert (Forall (λ s, - 2 ^ 53 ≤ sc_x s ≤ 2 ^ 53 - 450) (live initial)) as Hr.
  { apply Forall_cons_2; [|apply Forall_nil_2]. cbn. lia. }
  assert (findIndex (p_id login) (live initial) = None) as Hf by reflexivity.
  split; [exact H|]. split; [exact Hr|]. split; [exact Hf|].
  destruct (upsertScreen_places_right 1 login None initial H Hr Hf eq_refl eq_refl)
    as (new & Hlive & _ & Hy & _ & _ & Hall).
  exists new. split; [exact Hlive|]. split; [exact Hy|].
  apply (Hall welcome). apply list_elem_of_here.
Defined.

(** X6. An upsert is idempotent on the screens: the same update a second
    time, at any time and with any options, leaves [screens.value] as the
    first left it. *)
Theorem upsertScreen_again now now' screen options options' st :
  (screens st < length (heap st))%nat →
  let st' := upsertScreen now screen options st in
  live (upsertScreen now' screen options' st') = live st'.
Proof.
  intros Hs st'.
  rewrite live_upsertScreen by by apply upsertScreen_valid.
  subst st'. rewrite findIndex_upsertScreen by done.
  rewrite live_upsertScreen by done.
  destruct (findIndex (p_id screen) (live st)) as [[k old]|] eqn:E.
  - rewrite merge_merge. apply list_insert_id.
    apply list_lookup_insert_eq. apply list_find_Some in E as (Hk & _).
    by eapply lookup_lt_Some.
  - rewrite merge_create. rewrite insert_app_r_alt by lia.
    by rewrite Nat.sub_diag.
Qed.

Lemma upsertScreen_again_witness :
  (screens initial < length (heap initial))%nat
  ∧ live (upsertScreen 2 login (Some {| skipHistory := Some true |}) with_login)
    = live with_login.
Proof.
  assert (screens initial < length (heap initial))%nat as H by (cbn; lia).
  split; [exact H|].
  exact (upsertScreen_again 1 2 login None (Some {| skipHistory := Some true |})
           initial H).
Defined.

(** X7. After an upsert [findIndex] finds a screen with the id of the
    update, and every field the update provides has the provided value. *)
Theorem upsertScreen_then_find now screen options st :
  (screens st < length (heap st))%nat →
  ∃ k s, findIndex (p_id screen) (live (upsertScreen now screen options st))
         = Some (k, s)
    ∧ sc_id s = p_id screen
    ∧ (∀ v, p_name screen = Some v → sc_name s = v)
    ∧ (∀ v, p_html screen = Some v → sc_html s = v)
    ∧ (∀ v, p_css screen = Some v → sc_css s = v)
    ∧ (∀ v, p_x screen = Some v → sc_x s = v)
    ∧ (∀ v, p_y screen = Some v → sc_y s = v).
Proof.
  intros Hs. rewrite findIndex_upsertScreen by done.
  destruct (findIndex (p_id screen) (live st)) as [[k old]|];
    eexists _, _; (split; [done|]); cbn;
    split_and!; try done; by intros v ->.
Qed.

Lemma upsertScreen_then_find_witness :
  (screens initial < length (heap initial))%nat
  ∧ ∃ k s, findIndex "welcome" (live (upsertScreen 7 restyle None initial))
           = Some (k, s)
      ∧ sc_html s = "<p/>".
Proof.
  assert (screens initial < length (heap initial))%nat as H by (cbn; lia).
  split; [exact H|].
  destruct (upsertScreen_then_find 7 restyle None initial H)
    as (k & s & Hf & _ & _ & Hhtml & _).
  exists k, s. split; [exact Hf|]. by apply Hhtml.
Defined.

End StoreInvariants.

(** * More of the chunk handler *)
Section HandlerInvariants.
Import ProjectState ToolEvents.
#[local] Arguments find_invocation : simpl never.
Implicit Types (id : string) (m : Message) (i x y : ToolInvocation)
  (l : list ToolInvocation) (d : Deps) (chunk : SSEChunk) (st : State).

(** The project states a handler can lead to from a given one: any number
    of its four actions. *)
Inductive store_steps : State → State → Prop :=
| steps_refl st : store_steps st st
| steps_upsertScreen (now : Z) screen options st st' :
    store_steps st st' → store_steps st (upsertScreen now screen options st')
| steps_restoreVersion index st st' :
    store_steps st st' → store_steps st (restoreVersion index st')
| steps_setEditingScreenId (v : option string) st st' :
    store_steps st st' → store_steps st (setEditingScreenId v st')
| steps_setIsDesigning (v : bool) st st' :
    store_steps st st' → store_steps st (setIsDesigning v st').

Lemma store_steps_trans st1 st2 st3 :
  store_steps st1 st2 → store_steps st2 st3 → store_steps st1 st3.
Proof. induction 2; eauto using store_steps. Qed.

Lemma handleChunk_steps now chunk d :
  store_steps (project d) (project (handleChunk now chunk d)).
Proof.
  destruct chunk as [?|? name|[?|] [?|]|? ? input|? output|? ?|?|?];
    cbn [handleChunk]; try apply steps_refl.
  - destruct getOrCreateInvocation. destruct String.eqb; cbn;
      eauto using store_steps.
  - cbn. eauto using store_steps.
  - destruct getOrCreateInvocation. destruct is_tool; [|apply steps_refl].
    destruct (_ ≫= in_id); cbn; eauto using store_steps.
  - destruct getOrCreateInvocation.
    destruct is_tool, output; cbn; eauto using store_steps;
      destruct is_tool; cbn; eauto using store_steps.
  - destruct getOrCreateInvocation. destruct is_tool; cbn; eauto using store_steps.
Qed.

Lemma handleChunks_steps chunks d :
  store_steps (project d) (project (handleChunks chunks d)).
Proof.
  revert d. induction chunks as [|[now chunk] chunks IH]; intros d;
    cbn [handleChunks]; [apply steps_refl|].
  eapply store_steps_trans; [apply handleChunk_steps|apply IH].
Qed.

Lemma store_steps_wf st st' : store_steps st st' → wf st → wf st'.
Proof. induction 1; auto using wf_upsertScreen, wf_restoreVersion. Qed.

Lemma store_steps_reachable st st' : store_steps st st' → reachable st → reachable st'.
Proof. induction 1; eauto using reachable. Qed.

Lemma store_steps_keeps_history st st' :
  store_steps st st' → wf st → keeps_history st st'.
Proof.
  induction 1; intros Hwf; try (by apply IHstore_steps).
  - apply keeps_history_refl.
  - eapply keeps_history_trans; [by apply IHstore_steps|].
    eapply keeps_history_upsertScreen, store_steps_wf; done.
  - eapply keeps_history_trans; [by apply IHstore_steps|].
    eapply keeps_history_restoreVersion, store_steps_wf; done.
Qed.

Lemma store_steps_prefix st st' :
  store_steps st st' → history st `prefix_of` history st'.
Proof.
  induction 1; try done.
  - etrans; [done|]. rewrite history_upsertScreen.
    destruct (records_history options); [by apply prefix_app_r|done].
  - etrans; [done|]. unfold restoreVersion. by destruct (history_at st' index).
Qed.


(** X8. Whatever chunks the handler receives, a project state the module
    can be in stays one: the history only grows at its end, the array of every
    item it had holds the screens it held, and no two screens of
    [screens.value] have the same id. *)
Theorem handleChunks_history chunks d :
  reachable (project d) →
  let d' := handleChunks chunks d in
  reachable (project d')
  ∧ history (project d) `prefix_of` history (project d')
  ∧ (∀ k item, history (project d) !! k = Some item →
       snapshot (project d') item = snapshot (project d) item)
  ∧ NoDup (sc_id <$> live (project d')).
Proof.
  intros Hr d'. pose proof (handleChunks_steps chunks d) as Hsteps.
  assert (reachable (project d')) as Hr' by by eapply store_steps_reachable.
  split_and!; [done|by apply store_steps_prefix| |by apply unique_ids_reachable].
  intros k item Hk.
  by destruct (store_steps_keeps_history _ _ Hsteps (reachable_wf _ Hr) k item Hk).
Qed.

Lemma handleChunks_history_witness :
  reachable (project designing)
  ∧ reachable (project after_result)
  ∧ NoDup (sc_id <$> live (project after_result)).
Proof.
  assert (reachable (project designing)) as H
    by exact (reach_setIsDesigning true initial reach_initial).
  split; [exact H|].
  destruct (handleChunks_history
              [(2, tool_output_available "call1" (Some login_output))]
              designing H) as (Hr & _ & _ & Hnd).
  split; [exact Hr|exact Hnd].
Defined.

(** The ids of the invocations of a message, in order. *)
Definition invocation_ids m : list string :=
  toolCallId <$> default [] (toolInvocations m).

Lemma find_invocation_None id l :
  find_invocation id l = None ↔ id ∉ toolCallId <$> l.
Proof.
  unfold find_invocation. rewrite list_find_None, Forall_forall, list_elem_of_fmap.
  split.
  - intros Hl (s & -> & Hs). by apply (Hl s).
  - intros Hn s Hs ?. apply Hn. by exists s.
Qed.

Lemma ids_insert_same l k x y :
  l !! k = Some x → toolCallId y = toolCallId x →
  toolCallId <$> <[k := y]> l = toolCallId <$> l.
Proof.
  intros Hk Hy. rewrite list_fmap_insert. apply list_insert_id.
  by rewrite list_lookup_fmap, Hk, Hy.
Qed.

(** The ids after [getOrCreateInvocation]: the same, or one more at the end
    that was not there. *)
Lemma getOrCreateInvocation_ids id name m :
  let m' := (getOrCreateInvocation id name m).1 in
  invocation_ids m' = invocation_ids m
  ∨ invocation_ids m' = invocation_ids m ++ [id] ∧ id ∉ invocation_ids m.
Proof.
  unfold getOrCreateInvocation, invocation_ids.
  destruct (toolInvocations m) as [l|] eqn:El; cbn; [|by left].
  destruct (find_invocation id l) as [[k x]|] eqn:E; cbn.
  - left. destruct (_ && _); cbn; [|by rewrite El].
    apply find_invocation_id in E as [Hk _]. by eapply ids_insert_same.
  - right. rewrite fmap_app. split; [done|]. by apply find_invocation_None.
Qed.

Lemma write_invocation_ids y m :
  invocation_ids (write_invocation y m) = invocation_ids m.
Proof.
  unfold write_invocation, invocation_ids.
  destruct (toolInvocations m) as [l|]; cbn; [|done].
  destruct (find_invocation (toolCallId y) l) as [[k x]|] eqn:E; [|done].
  apply find_invocation_id in E as [Hk Hx]. by eapply ids_insert_same.
Qed.

Lemma message_after_ids chunk m :
  invocation_ids (message_after chunk m) = invocation_ids m
  ∨ ∃ id, references chunk id
      ∧ invocation_ids (message_after chunk m) = invocation_ids m ++ [id]
      ∧ id ∉ invocation_ids m.
Proof.
  destruct chunk as [?|id name|[?|] [?|]|id name input|id output|id text|?|?];
    cbn [message_after]; try by left.
  - destruct (getOrCreateInvocation_ids id (Some name) m) as [?|[??]];
      [by left|right; by exists id].
  - pose proof (getOrCreateInvocation_ids id (Some name) m) as Hg.
    destruct getOrCreateInvocation as [m' i]. rewrite write_invocation_ids.
    destruct Hg as [?|[??]]; [by left|right; by exists id].
  - pose proof (getOrCreateInvocation_ids id None m) as Hg.
    destruct getOrCreateInvocation as [m' i]. rewrite write_invocation_ids.
    destruct Hg as [?|[??]]; [by left|right; by exists id].
  - pose proof (getOrCreateInvocation_ids id None m) as Hg.
    destruct getOrCreateInvocation as [m' i]. rewrite write_invocation_ids.
    destruct Hg as [?|[??]]; [by left|right; by exists id].
Qed.

(** X9. The handler never removes or reorders an invocation and never adds
    one with an id the message has: the ids stay distinct, and those of the
    message before are a prefix of those after. *)
Theorem invocations_append_only chunks d :
  NoDup (invocation_ids (assistantMessage d)) →
  let d' := handleChunks chunks d in
  NoDup (invocation_ids (assistantMessage d'))
  ∧ invocation_ids (assistantMessage d)
      `prefix_of` invocation_ids (assistantMessage d').
Proof.
  revert d. induction chunks as [|[now chunk] chunks IH]; intros d Hnd;
    cbn [handleChunks]; [done|].
  assert (NoDup (invocation_ids (assistantMessage (handleChunk now chunk d)))
          ∧ invocation_ids (assistantMessage d)
              `prefix_of` invocation_ids (assistantMessage (handleChunk now chunk d)))
    as [Hnd' Hpre].
  { rewrite handleChunk_message.
    destruct (message_after_ids chunk (assistantMessage d))
      as [->|(id & _ & -> & Hid)]; [done|].
    split; [|by apply prefix_app_r].
    apply NoDup_app. split_and!; [done| |apply NoDup_singleton].
    by intros x Hx ->%list_elem_of_singleton. }
  destruct (IH _ Hnd') as [? ?]. split; [done|]. by etrans.
Qed.

Lemma invocations_append_only_witness :
  NoDup (invocation_ids (assistantMessage designing))
  ∧ NoDup (invocation_ids (assistantMessage
             (handleChunks
                [(2, tool_input_start "call2" "getScreen");
                 (3, tool_output_error "call1" "no such screen")]
                designing))).
Proof.
  assert (NoDup (invocation_ids (assistantMessage designing))) as H
    by (vm_compute; apply NoDup_singleton).
  split; [exact H|].
  exact (proj1 (invocations_append_only
                  [(2, tool_input_start "call2" "getScreen");
                   (3, tool_output_error "call1" "no such screen")]
                  designing H)).
Defined.

(** X10. A chunk that does not carry the id of a call leaves the
    invocation of that call as it is. *)
Theorem other_calls_untouched now chunk d id :
  ¬ references chunk id →
  invocation_of id (handleChunk now chunk d) = invocation_of id d.
Proof.
  intros Hne. rewrite invocation_of_after. unfold invocation_of.
  fold (lookup_invocation id (assistantMessage d)).
  assert (∀ id' name (f : ToolInvocation → ToolInvocation),
    id' ≠ id → (∀ i, toolCallId (f i) = toolCallId i) →
    let '(m', i) := getOrCreateInvocation id' name (assistantMessage d) in
    lookup_invocation id (write_invocation (f i) m')
    = lookup_invocation id (assistantMessage d)) as Hwrite.
  { intros id' name f Hid Hf.
    pose proof (getOrCreateInvocation_other id id' name (assistantMessage d)
                  ltac:(done)) as Ho.
    pose proof (getOrCreateInvocation_id id' name (assistantMessage d)) as Hid'.
    destruct getOrCreateInvocation as [m' i]. cbn in Ho, Hid'.
    rewrite write_invocation_other; [done|]. rewrite Hf. congruence. }
  destruct chunk as [?|id' name|[?|] [?|]|id' name input|id' output|id' text|?|?];
    cbn [message_after references] in *; try done.
  - by apply getOrCreateInvocation_other.
  - specialize (Hwrite id' (Some name)
      (λ i, {| toolCallId := toolCallId i; toolName := toolName i; state := st_call;
               args := input; result := result i; errorText := errorText i |})
      Hne ltac:(done)).
    by destruct getOrCreateInvocation.
  - specialize (Hwrite id' None
      (λ i, {| toolCallId := toolCallId i; toolName := toolName i;
               state := st_result; args := args i; result := output;
               errorText := errorText i |}) Hne ltac:(done)).
    by destruct getOrCreateInvocation.
  - specialize (Hwrite id' None
      (λ i, {| toolCallId := toolCallId i; toolName := toolName i;
               state := st_error; args := args i; result := result i;
               errorText := Some text |}) Hne ltac:(done)).
    by destruct getOrCreateInvocation.
Qed.

Lemma other_calls_untouched_witness :
  ¬ references (tool_output_error "call2" "no such screen") "call1"
  ∧ invocation_of "call1"
      (handleChunk 5 (tool_output_error "call2" "no such screen") designing)
    = Some call1_started.
Proof.
  assert (¬ references (tool_output_error "call2" "no such screen") "call1") as H
    by (cbn; discriminate).
  split; [exact H|].
  exact (other_calls_untouched 5 (tool_output_error "call2" "no such screen")
           designing "call1" H).
Defined.


Lemma append_nil_r (s : string) : s +:+ "" = s.
Proof.
  induction s as [|a s IH]; [done|].
  change (String a (s +:+ "") = String a s). by rewrite IH.
Qed.

Lemma append_assoc (s t u : string) : (s +:+ t) +:+ u = s +:+ t +:+ u.
Proof.
  induction s as [|a s IH]; [done|].
  change (String a ((s +:+ t) +:+ u) = String a (s +:+ t +:+ u)). by rewrite IH.
Qed.

(** The text of a stream: its [text-delta] chunks, in order. *)
Fixpoint streamed_text (chunks : list (Z * SSEChunk)) : string :=
  match chunks with
  | [] => ""
  | (_, text_delta delta) :: rest => delta +:+ streamed_text rest
  | _ :: rest => streamed_text rest
  end.

Lemma write_invocation_content y m : content (write_invocation y m) = content m.
Proof. done. Qed.

Lemma getOrCreateInvocation_content id name m :
  content (getOrCreateInvocation id name m).1 = content m.
Proof.
  unfold getOrCreateInvocation.
  destruct (_ ≫= _) as [[? [??]]|]; [|done]. by destruct (_ && _).
Qed.

Lemma message_after_content chunk m :
  content (message_after chunk m) =
  match chunk with
  | text_delta delta => content m +:+ delta
  | _ => content m
  end.
Proof.
  destruct chunk as [?|id name|[?|] [?|]|id name input|id output|id text|?|?];
    cbn [message_after]; try done.
  - apply getOrCreateInvocation_content.
  - pose proof (getOrCreateInvocation_content id (Some name) m).
    by destruct getOrCreateInvocation.
  - pose proof (getOrCreateInvocation_content id None m).
    by destruct getOrCreateInvocation.
  - pose proof (getOrCreateInvocation_content id None m).
    by destruct getOrCreateInvocation.
Qed.

(** X11. The content of the message after a stream is the content before
    followed by the [text-delta] texts in the order they came; no other chunk
    writes to it. *)
Theorem content_accumulates chunks d :
  content (assistantMessage (handleChunks chunks d)) =
  content (assistantMessage d) +:+ streamed_text chunks.
Proof.
  revert d. induction chunks as [|[now chunk] chunks IH]; intros d;
    cbn [handleChunks streamed_text].
  - by rewrite append_nil_r.
  - rewrite IH, handleChunk_message, message_after_content.
    destruct chunk; try done. by rewrite append_assoc.
Qed.

Lemma getOrCreateInvocation_new id name m l :
  toolInvocations m = Some l → lookup_invocation id m = None →
  let created :=
    {| toolCallId := id; toolName := name; state := st_call;
       args := None; result := None; errorText := None |} in
  getOrCreateInvocation id name m =
    ({| content := content m; toolInvocations := Some (l ++ [created]) |}, created)
  ∧ lookup_invocation id
      {| content := content m; toolInvocations := Some (l ++ [created]) |}
    = Some created.
Proof.
  unfold lookup_invocation, getOrCreateInvocation. intros ->. cbn.
  destruct (find_invocation id l) as [[??]|] eqn:E; [done|]. intros _. cbn.
  split; [done|]. rewrite find_push, E. by rewrite decide_True.
Qed.

(** X12. An output or an error for a call the message does not hold makes
    an invocation without a tool name, in [result] or [error]; since it has no
    name, the project state and the map stay as they are. *)
Theorem unannounced_call now d id l :
  toolInvocations (assistantMessage d) = Some l → invocation_of id d = None →
  (∀ output,
     let d' := handleChunk now (tool_output_available id output) d in
     invocation_of id d' =
       Some {| toolCallId := id; toolName := None; state := st_result;
               args := None; result := output; errorText := None |}
     ∧ project d' = project d
     ∧ toolCallIdToScreenId d' = toolCallIdToScreenId d)
  ∧ (∀ text : string,
     let d' := handleChunk now (tool_output_error id text) d in
     invocation_of id d' =
       Some {| toolCallId := id; toolName := None; state := st_error;
               args := None; result := None; errorText := Some text |}
     ∧ project d' = project d
     ∧ toolCallIdToScreenId d' = toolCallIdToScreenId d).
Proof.
  intros Hl Hnone.
  destruct (getOrCreateInvocation_new id None _ l Hl Hnone) as [Hg Hfind].
  split.
  - intros output d'. subst d'. split.
    + rewrite invocation_of_after. cbn [message_after]. rewrite Hg.
      by eapply write_invocation_same.
    + cbn [handleChunk]. rewrite Hg. unfold is_tool. cbn.
      by destruct output.
  - intros text d'. subst d'. split.
    + rewrite invocation_of_after. cbn [message_after]. rewrite Hg.
      by eapply write_invocation_same.
    + cbn [handleChunk]. by rewrite Hg.
Qed.

Lemma unannounced_call_witness :
  toolInvocations (assistantMessage (fresh initial)) = Some []
  ∧ invocation_of "call9" (fresh initial) = None
  ∧ project (handleChunk 1 (tool_output_available "call9" (Some login_output))
               (fresh initial)) = initial.
Proof.
  split; [reflexivity|]. split; [reflexivity|].
  destruct (unannounced_call 1 (fresh initial) "call9" [] eq_refl eq_refl)
    as [Hout _].
  exact (proj1 (proj2 (Hout (Some login_output)))).
Defined.

(** X13. The output of a call named upsertScreen is applied as one recorded
    upsert: the history gets one item, the screen of the output is there with
    the fields the output provides, the entry of the call leaves the map, and
    the editing pointer and the designing flag are cleared. *)
Theorem upsert_output_applied now d id i out :
  invocation_of id d = Some i → toolName i = Some "upsertScreen" →
  (screens (project d) < length (heap (project d)))%nat →
  let d' := handleChunk now (tool_output_available id (Some out)) d in
  editingScreenId (project d') = None
  ∧ isDesigning (project d') = false
  ∧ toolCallIdToScreenId d' !! id = None
  ∧ history (project d') =
      history (project d)
      ++ [{| timestamp := now; hi_screens := length (heap (project d)) |}]
  ∧ ∃ k s, findIndex (p_id (out_screen out)) (live (project d')) = Some (k, s)
      ∧ (∀ v, p_name (out_screen out) = Some v → sc_name s = v)
      ∧ (∀ v, p_html (out_screen out) = Some v → sc_html s = v)
      ∧ (∀ v, p_css (out_screen out) = Some v → sc_css s = v).
Proof.
  intros Hi Hn Hs d'.
  destruct (handleChunk_output now d id (Some out) i Hi) as [_ Hp].
  unfold is_tool in Hp. rewrite bool_decide_eq_true_2 in Hp by done.
  assert (toolCallIdToScreenId d' !! id = None) as Hm.
  { subst d'. cbn [handleChunk].
    rewrite (getOrCreateInvocation_unnamed _ _ _ Hi). unfold is_tool. cbn [toolName].
    rewrite bool_decide_eq_true_2 by done. cbn. apply lookup_delete_eq. }
  subst d'. rewrite Hp. split_and!; [done|done|done| |].
  - cbn. by rewrite history_upsertScreen.
  - change (live (setIsDesigning false (setEditingScreenId None ?st)))
      with (live st).
    rewrite findIndex_upsertScreen by done.
    destruct (findIndex (p_id (out_screen out)) (live (project d))) as [[k old]|];
      eexists _, _; (split; [done|]); cbn; split_and!; by intros v ->.
Qed.

Lemma upsert_output_applied_witness :
  invocation_of "call1" designing = Some call1_started
  ∧ toolName call1_started = Some "upsertScreen"
  ∧ (screens (project designing) < length (heap (project designing)))%nat
  ∧ isDesigning (project after_result) = false
  ∧ history (project after_result) = [{| timestamp := 2; hi_screens := 1 |}].
Proof.
  assert (invocation_of "call1" designing = Some call1_started) as Hi
    by (vm_compute; reflexivity).
  assert (screens (project designing) < length (heap (project designing)))%nat
    as Hs by (vm_compute; lia).
  split; [exact Hi|]. split; [reflexivity|]. split; [exact Hs|].
  destruct (upsert_output_applied 2 designing "call1" call1_started login_output
              Hi eq_refl Hs) as (_ & Hd & _ & Hh & _).
  split; [exact Hd|exact Hh].
Defined.

(** A call of restoreVersion that has started, in a project with one item
    of history, and an output that names that item. *)
Definition restoring : Deps :=
  handleChunk 3 (tool_input_start "call2" "restoreVersion") (fresh with_login).

Definition call2_started : ToolInvocation :=
  {| toolCallId := "call2"; toolName := Some "restoreVersion"; state := st_call;
     args := None; result := None; errorText := None |}.

Definition first_version : ToolOutput :=
  {| out_screen := restyle; out_index := of_int 0 |}.

(** X14. The output of a call named restoreVersion touches the screens
    alone: history, editing pointer, designing flag and map stay; the screens
    become those of the item the index names, and nothing changes when the
    index names none. *)
Theorem restore_output_applied now d id i out :
  invocation_of id d = Some i → toolName i = Some "restoreVersion" →
  let d' := handleChunk now (tool_output_available id (Some out)) d in
  history (project d') = history (project d)
  ∧ editingScreenId (project d') = editingScreenId (project d)
  ∧ isDesigning (project d') = isDesigning (project d)
  ∧ toolCallIdToScreenId d' = toolCallIdToScreenId d
  ∧ (∀ item, history_at (project d) (out_index out) = Some item →
       live (project d') = snapshot (project d) item)
  ∧ (history_at (project d) (out_index out) = None → project d' = project d).
Proof.
  intros Hi Hn d'.
  destruct (handleChunk_output now d id (Some out) i Hi) as [_ Hp].
  unfold is_tool in Hp. rewrite bool_decide_eq_false_2 in Hp by congruence.
  rewrite bool_decide_eq_true_2 in Hp by done.
  assert (toolCallIdToScreenId d' = toolCallIdToScreenId d) as Hm.
  { subst d'. cbn [handleChunk].
    rewrite (getOrCreateInvocation_unnamed _ _ _ Hi). unfold is_tool. cbn [toolName].
    rewrite bool_decide_eq_false_2 by congruence.
    by rewrite bool_decide_eq_true_2 by done. }
  subst d'. rewrite Hp. split_and!; try done.
  - unfold restoreVersion. by destruct history_at.
  - unfold restoreVersion. by destruct history_at.
  - unfold restoreVersion. by destruct history_at.
  - intros item. apply live_restoreVersion.
  - intros E. unfold restoreVersion. by rewrite E.
Qed.

Lemma restore_output_applied_witness :
  invocation_of "call2" restoring = Some call2_started
  ∧ toolName call2_started = Some "restoreVersion"
  ∧ live (project (handleChunk 4 (tool_output_available "call2" (Some first_version))
                     restoring)) = [welcome].
Proof.
  assert (invocation_of "call2" restoring = Some call2_started) as Hi
    by (vm_compute; reflexivity).
  split; [exact Hi|]. split; [reflexivity|].
  destruct (restore_output_applied 4 restoring "call2" call2_started first_version
              Hi eq_refl) as (_ & _ & _ & _ & Hlive & _).
  exact (Hlive {| timestamp := 1; hi_screens := 1 |} eq_refl).
Defined.

End HandlerInvariants.

(** * More of the frame loop *)
Section FrameMore.

(** One pass of the inner loop. *)
Lemma drain_cases (buffer : text) :
  Sse.drain buffer =
  match Sse.cut buffer with
  | Sse.no_separator => ([], buffer, false)
  | Sse.skipped b => Sse.drain b
  | Sse.finished b => ([], b, true)
  | Sse.event data b =>
      let '(payloads, b, streamDone) := Sse.drain b in
      (data :: payloads, b, streamDone)
  end.
Proof. apply drain_unfold. Qed.

Import Sse.
Implicit Types (buffer b t s p l raw rest : text) (lines : list text)
  (chunks : list (list Byte.byte)).

(** The text the loop has buffered once all the chunks are read. *)
Definition decoded chunks : text :=
  strip_cr (TextDecoder.decode TextDecoder.initial (concat chunks)).2.

Lemma parseSSEStream_decoded chunks :
  parseSSEStream chunks = (drain (decoded chunks)).1.1.
Proof. unfold parseSSEStream. by rewrite read_loop_whole. Qed.

Lemma decoded_app chunks more :
  ∃ t, decoded (chunks ++ more) = decoded chunks ++ t.
Proof.
  unfold decoded. rewrite concat_app, decode_app.
  destruct (TextDecoder.decode _ (concat chunks)) as [st s].
  destruct (TextDecoder.decode st (concat more)) as [st' s'].
  exists (strip_cr s'). cbn. apply strip_cr_app.
Qed.

(** X15. Once the sentinel has been read the stream is over: whatever
    chunks the reader still returns, no further payload is parsed. *)
Theorem nothing_after_sentinel chunks more :
  (drain (decoded chunks)).2 = true →
  parseSSEStream (chunks ++ more) = parseSSEStream chunks.
Proof.
  intros Hdone. rewrite !parseSSEStream_decoded.
  destruct (decoded_app chunks more) as [t ->]. rewrite drain_app.
  destruct (drain (decoded chunks)) as [[ps b] sd]. cbn in Hdone. by subst sd.
Qed.

Lemma nothing_after_sentinel_witness :
  (drain (decoded [sample])).2 = true
  ∧ parseSSEStream ([sample] ++ [bytes ("data: more" +:+ nl +:+ nl)])
    = parseSSEStream [sample].
Proof.
  assert ((drain (decoded [sample])).2 = true) as H by (vm_compute; reflexivity).
  split; [exact H|].
  exact (nothing_after_sentinel [sample] [bytes ("data: more" +:+ nl +:+ nl)] H).
Defined.

Lemma split_lines_elem s l c : l ∈ split_lines s → c ∈ l → c ∈ s.
Proof.
  revert l. induction s as [|a s IH]; intros l; cbn [split_lines].
  - by intros ->%list_elem_of_singleton ?%elem_of_nil.
  - destruct (N.eqb_spec a LF) as [->|Ha].
    + intros [->|Hl]%elem_of_cons Hc; [by apply elem_of_nil in Hc|].
      right. by apply (IH l).
    + destruct (split_lines s) as [|l0 ls] eqn:E.
      * intros ->%list_elem_of_singleton ->%list_elem_of_singleton. by left.
      * intros [->|Hl]%elem_of_cons Hc.
        -- apply elem_of_cons in Hc as [->|Hc]; [by left|].
           right. apply (IH l0); [by left|done].
        -- right. apply (IH l); [by right|done].
Qed.

Lemma trimStart_elem s c : c ∈ trimStart s → c ∈ s.
Proof.
  induction s as [|a s IH]; cbn [trimStart]; [done|].
  destruct (is_space a); [|done]. intros ?. right. auto.
Qed.

Lemma join_lines_elem lines c :
  c ∈ join_lines lines → c = LF ∨ ∃ l, l ∈ lines ∧ c ∈ l.
Proof.
  induction lines as [|l [|l' ls] IH]; cbn [join_lines].
  - by intros ?%elem_of_nil.
  - intros ?. right. exists l. split; [by left|done].
  - intros [Hc|[->|Hc]%elem_of_cons]%elem_of_app.
    + right. exists l. split; [by left|done].
    + by left.
    + destruct (IH Hc) as [?|(l0 & ? & ?)]; [by left|].
      right. exists l0. split; [by right|done].
Qed.

Lemma payload_elem raw c :
  c ∈ payload (dataLines raw) → c = LF ∨ c ∈ raw.
Proof.
  unfold payload, dataLines.
  intros [?|(l & Hl & Hc)]%join_lines_elem; [by left|]. right.
  apply list_elem_of_fmap in Hl as (l0 & -> & Hl0).
  apply list_elem_of_filter in Hl0 as [_ Hl0].
  apply trimStart_elem in Hc. apply (split_lines_elem raw l0); [done|].
  by eapply subseteq_drop.
Qed.

(** A payload is never the sentinel, and its characters are those of the
    buffer and line feeds. *)
Lemma drain_payloads buffer p :
  p ∈ (drain buffer).1.1 → p ≠ DONE ∧ ∀ c, c ∈ p → c = LF ∨ c ∈ buffer.
Proof.
  remember (length buffer) as n eqn:Hn. revert buffer Hn p.
  induction (lt_wf n) as [n _ IH]. intros buffer -> p Hp.
  rewrite (drain_cases buffer) in Hp.
  pose proof (cut_shorter buffer) as Hlt.
  unfold cut in *.
  destruct (indexOf separator buffer) as [i|] eqn:Ei;
    [|by apply elem_of_nil in Hp].
  assert (∀ q, q ∈ (drain (drop (i + 2) buffer)).1.1 →
            (length (drop (i + 2) buffer) < length buffer)%nat →
            q ≠ DONE ∧ ∀ c, c ∈ q → c = LF ∨ c ∈ buffer) as Hrec.
  { intros q Hq Hlen. destruct (IH _ Hlen _ eq_refl q Hq) as [? Hc].
    split; [done|]. intros c Hin. destruct (Hc c Hin) as [?|?]; [by left|].
    right. by eapply subseteq_drop. }
  destruct (dataLines (take i buffer)) as [|l0 ls] eqn:El; cbn [rest_of] in Hlt.
  - apply Hrec; [done|]. by apply Hlt.
  - rewrite <- El in *. case_bool_decide as Hd; cbn [rest_of] in Hlt.
    + by apply elem_of_nil in Hp.
    + destruct (drain (drop (i + 2) buffer)) as [[ps b'] sd]. cbn in Hp, Hrec.
      apply elem_of_cons in Hp as [->|Hp].
      * split; [done|]. intros c [?|Hc]%payload_elem; [by left|].
        right. by eapply subseteq_take.
      * apply Hrec; [done|]. by apply Hlt.
Qed.

(** X16. No payload handed to [JSON.parse] is the sentinel text, and none
    holds a carriage return. *)
Theorem payloads_clean chunks p :
  p ∈ parseSSEStream chunks → p ≠ DONE ∧ CR ∉ p.
Proof.
  rewrite parseSSEStream_decoded. intros [Hd Hc]%drain_payloads.
  split; [done|]. intros [?|Hin]%Hc; [done|].
  unfold decoded, strip_cr in Hin. by apply list_elem_of_filter in Hin as [? _].
Qed.

Lemma payloads_clean_witness :
  [233%N] ∈ parseSSEStream [sample] ∧ [233%N] ≠ DONE ∧ CR ∉ [233%N].
Proof.
  assert ([233%N] ∈ parseSSEStream [sample]) as H
    by (vm_compute; apply list_elem_of_here).
  split; [exact H|]. exact (payloads_clean [sample] [233%N] H).
Defined.


(** ** Events on the wire *)

(** The separator right after a text that has none, even with one more
    line feed, is the first one. *)
Lemma indexOf_first raw rest :
  indexOf separator (raw ++ [LF]) = None →
  indexOf separator (raw ++ separator ++ rest) = Some (length raw).
Proof.
  induction raw as [|a r IH]; [done|].
  cbn [app indexOf length].
  destruct (startsWith separator (a :: r ++ [LF])) eqn:E; [done|].
  destruct (indexOf separator (r ++ [LF])) as [?|] eqn:Er; [done|]. intros _.
  apply (startsWith_app_false _ _ (LF :: rest)) in E.
  - cbn [app] in E. rewrite <- app_assoc in E. cbn [app] in E.
    change (r ++ separator ++ rest) with (r ++ LF :: LF :: rest) in *.
    rewrite E. by rewrite IH.
  - cbn. rewrite length_app. cbn. lia.
Qed.

(** X17. An event without a data line (a comment, an [event:] or [id:]
    field alone) is dropped together with its separator: the loop goes on with
    the text after it as if the event had not been sent. *)
Theorem comment_skipped raw rest :
  indexOf separator (raw ++ [LF]) = None → dataLines raw = [] →
  drain (raw ++ separator ++ rest) = drain rest.
Proof.
  intros Hraw Hlines. rewrite (drain_cases (raw ++ separator ++ rest)).
  unfold cut. rewrite indexOf_first by done.
  rewrite take_app_length.
  replace (drop (length raw + 2) (raw ++ separator ++ rest)) with rest.
  - by rewrite Hlines.
  - rewrite drop_app_add. done.
Qed.

Lemma comment_skipped_witness :
  indexOf separator (units ": ping" ++ [LF]) = None
  ∧ dataLines (units ": ping") = []
  ∧ drain (units ": ping" ++ separator ++ units ("data: a" +:+ nl +:+ nl))
    = drain (units ("data: a" +:+ nl +:+ nl)).
Proof.
  assert (indexOf separator (units ": ping" ++ [LF]) = None) as H
    by (vm_compute; reflexivity).
  assert (dataLines (units ": ping") = []) as Hl by (vm_compute; reflexivity).
  split; [exact H|]. split; [exact Hl|].
  exact (comment_skipped (units ": ping") (units ("data: a" +:+ nl +:+ nl)) H Hl).
Defined.

Lemma indexOf_None_line l t :
  LF ∉ l → indexOf separator (l ++ t) = None ↔ indexOf separator t = None.
Proof.
  intros Hl. induction l as [|a l IH]; [done|].
  apply not_elem_of_cons in Hl as [Ha Hl]. cbn [app indexOf].
  assert (startsWith separator (a :: l ++ t) = false) as ->.
  { cbn [separator startsWith]. apply andb_false_iff. left.
    apply N.eqb_neq. congruence. }
  rewrite <- (IH Hl). by destruct (indexOf separator (l ++ t)).
Qed.

Lemma indexOf_None_break c t :
  c ≠ LF → indexOf separator (LF :: c :: t) = None ↔ indexOf separator (c :: t) = None.
Proof.
  intros Hc. cbn [indexOf].
  assert (startsWith separator (LF :: c :: t) = false) as ->.
  { cbn [separator startsWith]. rewrite N.eqb_refl. cbn [andb].
    apply andb_false_iff. left. apply N.eqb_neq. congruence. }
  by destruct (startsWith separator (c :: t)), (indexOf separator t).
Qed.

(** The lines of a payload: no line feed inside, and nothing [trimStart]
    would remove. *)
Definition plain l : Prop := (LF ∉ l) ∧ trimStart l = l.

(** [data: ] and the line. *)
Definition data_line l : text := data_prefix ++ 32%N :: l.

(** An event as it is sent: one data line for each line of its payload,
    then the blank line. *)
Definition frame lines : text := join_lines (data_line <$> lines) ++ separator.

Lemma data_line_head l : ∃ t, data_line l = 100%N :: t ∧ (LF ∉ l → LF ∉ data_line l).
Proof.
  eexists. split; [done|]. intros Hl. unfold data_line, data_prefix. cbn.
  rewrite !not_elem_of_cons. by split_and!.
Qed.

Lemma join_lines_cons l l' ls :
  join_lines (l :: l' :: ls) = l ++ LF :: join_lines (l' :: ls).
Proof. done. Qed.

Lemma no_blank_in_lines lines :
  lines ≠ [] → Forall (λ l, LF ∉ l) lines →
  indexOf separator (join_lines (data_line <$> lines) ++ [LF]) = None.
Proof.
  intros Hne Hall. induction Hall as [|l ls Hl Hls IH]; [done|].
  destruct (data_line_head l) as (t & Ht & Hlf).
  destruct ls as [|l' ls].
  - cbn [fmap list_fmap join_lines]. apply indexOf_None_line; [by apply Hlf|done].
  - change (data_line <$> l :: l' :: ls)
      with (data_line l :: data_line l' :: (data_line <$> ls)).
    rewrite join_lines_cons, <- app_assoc. cbn [app].
    apply indexOf_None_line; [by apply Hlf|].
    specialize (IH ltac:(done)).
    change (data_line <$> l' :: ls)
      with (data_line l' :: (data_line <$> ls)) in IH.
    destruct (data_line_head l') as (t' & Ht' & _).
    destruct ls as [|l'' ls]; cbn [fmap list_fmap join_lines] in *;
      rewrite Ht' in *; cbn [app] in *; by apply indexOf_None_break.
Qed.

Lemma split_lines_line l t :
  LF ∉ l → split_lines (l ++ LF :: t) = l :: split_lines t.
Proof.
  intros Hl. induction l as [|a l IH]; cbn [app split_lines].
  - by rewrite N.eqb_refl.
  - apply not_elem_of_cons in Hl as [Ha Hl].
    destruct (N.eqb_spec a LF) as [?|_]; [done|]. by rewrite (IH Hl).
Qed.

Lemma split_lines_plain l : LF ∉ l → split_lines l = [l].
Proof.
  intros Hl. induction l as [|a l IH]; cbn [split_lines]; [done|].
  apply not_elem_of_cons in Hl as [Ha Hl].
  destruct (N.eqb_spec a LF) as [?|_]; [done|]. by rewrite (IH Hl).
Qed.

Lemma split_join_lines ls :
  ls ≠ [] → Forall (λ l, LF ∉ l) ls → split_lines (join_lines ls) = ls.
Proof.
  intros Hne Hall. induction Hall as [|l ls Hl Hls IH]; [done|].
  destruct ls as [|l' ls]; [by apply split_lines_plain|].
  rewrite join_lines_cons, split_lines_line by done. by rewrite IH.
Qed.

Lemma dataLines_frame lines :
  lines ≠ [] → Forall plain lines →
  dataLines (join_lines (data_line <$> lines)) = data_line <$> lines.
Proof.
  intros Hne Hall. unfold dataLines. rewrite split_join_lines.
  - induction lines as [|l ls IH]; [done|]. cbn [fmap list_fmap].
    rewrite filter_cons_True by (apply startsWith_true; by eexists).
    destruct ls as [|l' ls]; [done|]. f_equal. apply IH; [done|].
    by apply Forall_cons in Hall as [_ ?].
  - by destruct lines.
  - apply Forall_fmap. eapply Forall_impl; [done|]. cbn. intros l [Hl _].
    destruct (data_line_head l) as (? & _ & H). by apply H.
Qed.

Lemma data_line_content l :
  trimStart l = l → trimStart (drop (length data_prefix) (data_line l)) = l.
Proof.
  intros Hl. unfold data_line. rewrite drop_app_length. cbn [trimStart].
  by assert (is_space 32 = true) as -> by done.
Qed.

Lemma payload_frame lines :
  Forall plain lines → payload (data_line <$> lines) = join_lines lines.
Proof.
  intros Hall. unfold payload. f_equal.
  induction Hall as [|l ls [_ Hl] _ IH]; [done|].
  cbn [fmap list_fmap map]. rewrite data_line_content by done. by f_equal.
Qed.

Lemma cut_frame lines rest :
  lines ≠ [] → Forall plain lines → join_lines lines ≠ DONE →
  cut (frame lines ++ rest) = event (join_lines lines) rest.
Proof.
  intros Hne Hall Hd. unfold cut, frame. rewrite <- app_assoc.
  rewrite indexOf_first.
  - rewrite take_app_length.
    replace (drop _ _) with rest by (by rewrite drop_app_add).
    rewrite dataLines_frame by done.
    pose proof (payload_frame lines Hall) as Hp.
    destruct lines as [|l ls]; [done|]. cbn [fmap list_fmap] in *.
    rewrite Hp. by rewrite bool_decide_eq_false_2.
  - apply no_blank_in_lines; [done|].
    eapply Forall_impl; [done|]. by intros l [? _].
Qed.

(** An event whose payload the loop gives back. *)
Definition sendable lines : Prop :=
  lines ≠ [] ∧ Forall plain lines ∧ join_lines lines ≠ DONE.

Lemma drain_frames events :
  Forall sendable events →
  drain (concat (frame <$> events)) = (join_lines <$> events, [], false).
Proof.
  induction 1 as [|lines events (Hne & Hall & Hd) _ IH]; [done|].
  cbn [fmap list_fmap concat]. rewrite drain_cases, cut_frame by done.
  change (list_fmap _ _ frame events) with (frame <$> events). by rewrite IH.
Qed.

(** The end of a line on the wire: a line feed, after a carriage return when
    the server sends one. *)
Definition line_end (crlf : bool) : text := if crlf then [CR; LF] else [LF].

(** An event on the wire: its data lines, each with its line end, and the
    blank line. *)
Definition wire_frame (crlf : bool) lines : text :=
  concat ((λ l, data_line l ++ line_end crlf) <$> lines) ++ line_end crlf.

Lemma strip_cr_id s : CR ∉ s → strip_cr s = s.
Proof.
  induction s as [|c s IH]; [done|]. intros [Hc Hs]%not_elem_of_cons.
  unfold strip_cr in *. rewrite filter_cons, decide_True by done. f_equal. auto.
Qed.

Lemma strip_cr_line_end crlf : strip_cr (line_end crlf) = [LF].
Proof. by destruct crlf. Qed.

Lemma strip_cr_data_line crlf l :
  CR ∉ l → strip_cr (data_line l ++ line_end crlf) = data_line l ++ [LF].
Proof.
  intros Hl. rewrite strip_cr_app, strip_cr_line_end. f_equal.
  apply strip_cr_id. unfold data_line. rewrite elem_of_app, elem_of_cons.
  intros [Hp|[?|?]]; [|done..]. vm_compute in Hp.
  repeat (apply elem_of_cons in Hp as [?|Hp]; [done|]). by apply elem_of_nil in Hp.
Qed.

(** Without its carriage returns an event on the wire is the event. *)
Lemma strip_cr_wire_frame crlf lines :
  lines ≠ [] → Forall (λ l, CR ∉ l) lines →
  strip_cr (wire_frame crlf lines) = frame lines.
Proof.
  intros Hne Hcr. unfold wire_frame, frame.
  rewrite strip_cr_app, strip_cr_line_end.
  induction lines as [|l [|l' ls] IH]; [done| |].
  - apply Forall_cons in Hcr as [Hl _]. cbn [fmap list_fmap concat join_lines].
    rewrite app_nil_r, strip_cr_data_line by done. by rewrite <- app_assoc.
  - apply Forall_cons in Hcr as [Hl Hcr].
    change (concat ((λ l, data_line l ++ line_end crlf) <$> l :: l' :: ls))
      with ((data_line l ++ line_end crlf)
            ++ concat ((λ l, data_line l ++ line_end crlf) <$> l' :: ls)).
    rewrite strip_cr_app, strip_cr_data_line by done.
    rewrite <- !app_assoc, (IH ltac:(done) Hcr).
    change (join_lines (data_line <$> l :: l' :: ls))
      with (data_line l ++ LF :: join_lines (data_line <$> l' :: ls)).
    by rewrite <- app_assoc.
Qed.

Lemma strip_cr_wire crlf events :
  Forall (λ lines, lines ≠ [] ∧ Forall (λ l, CR ∉ l) lines) events →
  strip_cr (concat (wire_frame crlf <$> events)) = concat (frame <$> events).
Proof.
  induction 1 as [|lines events [Hne Hcr] _ IH]; [done|].
  cbn [fmap list_fmap concat]. rewrite strip_cr_app, strip_cr_wire_frame by done.
  f_equal. exact IH.
Qed.

(** X18. Events written as the protocol says, one [data: ] line for each
    line of the payload and a blank line after the event, with line feeds or
    with carriage returns and line feeds as line ends, come out as their
    payloads, in order and whatever the chunking, as long as every event has a
    line, no payload line holds a line feed or a carriage return or starts
    with white space, and no payload is the sentinel. *)
Theorem frames_round_trip crlf chunks events :
  Forall sendable events →
  Forall (Forall (λ l, CR ∉ l)) events →
  (TextDecoder.decode TextDecoder.initial (concat chunks)).2
    = concat (wire_frame crlf <$> events) →
  parseSSEStream chunks = join_lines <$> events.
Proof.
  intros Hall Hcr Hd.
  assert (decoded chunks = concat (frame <$> events)) as Hf.
  { unfold decoded. rewrite Hd. apply strip_cr_wire.
    apply Forall_forall. intros lines Hin. split.
    - by destruct (proj1 (Forall_forall _ _) Hall lines Hin).
    - by apply (proj1 (Forall_forall _ _) Hcr lines Hin). }
  by rewrite parseSSEStream_decoded, Hf, drain_frames.
Qed.

(** Two events sent with carriage returns, cut inside a line. *)
Definition two_events : list (list Byte.byte) :=
  [bytes "data: a" ++ [Byte.x0d; Byte.x0a] ++ bytes "da";
   bytes "ta: b" ++ [Byte.x0d; Byte.x0a; Byte.x0d; Byte.x0a];
   bytes "data: c" ++ [Byte.x0d; Byte.x0a; Byte.x0d; Byte.x0a]].

Lemma frames_round_trip_witness :
  Forall sendable [[units "a"; units "b"]; [units "c"]]
  ∧ Forall (Forall (λ l, CR ∉ l)) [[units "a"; units "b"]; [units "c"]]
  ∧ (TextDecoder.decode TextDecoder.initial (concat two_events)).2
    = concat (wire_frame true <$> [[units "a"; units "b"]; [units "c"]])
  ∧ parseSSEStream two_events = [units ("a" +:+ nl +:+ "b"); units "c"].
Proof.
  assert (∀ c : N, c ≠ LF → trimStart [c] = [c] → plain [c]) as Hp.
  { intros c Hc Ht. split; [|exact Ht]. intros E%list_elem_of_singleton. congruence. }
  assert (∀ c : N, c ≠ CR → CR ∉ [c]) as Hc.
  { intros c Hne E%list_elem_of_singleton. congruence. }
  assert (Forall sendable [[units "a"; units "b"]; [units "c"]]) as H.
  { apply Forall_cons_2; [|apply Forall_cons_2; [|apply Forall_nil_2]].
    - split; [discriminate|]. split; [|discriminate].
      apply Forall_cons_2; [|apply Forall_cons_2; [|apply Forall_nil_2]];
        (apply Hp; [discriminate|reflexivity]).
    - split; [discriminate|]. split; [|discriminate].
      apply Forall_cons_2; [|apply Forall_nil_2].
      apply Hp; [discriminate|reflexivity]. }
  assert (Forall (Forall (λ l, CR ∉ l)) [[units "a"; units "b"]; [units "c"]])
    as Hcr.
  { apply Forall_cons_2; [|apply Forall_cons_2; [|apply Forall_nil_2]].
    - apply Forall_cons_2; [|apply Forall_cons_2; [|apply Forall_nil_2]];
        (apply Hc; discriminate).
    - apply Forall_cons_2; [|apply Forall_nil_2]. apply Hc; discriminate. }
  assert ((TextDecoder.decode TextDecoder.initial (concat two_events)).2
          = concat (wire_frame true <$> [[units "a"; units "b"]; [units "c"]]))
    as Hd by (vm_compute; reflexivity).
  split; [exact H|]. split; [exact Hcr|]. split; [exact Hd|].
  exact (frames_round_trip true _ _ H Hcr Hd).
Defined.

End FrameMore.

(** * More of the id extraction *)
Section ExtractorMore.
Import Extractor.
Implicit Types (id : string) (delta buffer s t v : text) (st : State)
  (deltas : list (string * text)).

(** The number of quotes of a text. *)
Definition quotes s : nat := length (filter (λ c, c = quote) s).

Lemma quotes_app s t : quotes (s ++ t) = (quotes s + quotes t)%nat.
Proof. unfold quotes. by rewrite filter_app, length_app. Qed.

Lemma quotes_none s : quote ∉ s → quotes s = 0%nat.
Proof.
  unfold quotes. induction s as [|c s IH]; [done|].
  intros [Hc Hs]%not_elem_of_cons. rewrite filter_cons_False by done. auto.
Qed.

Lemma quotes_spaces s : spaces s → quotes s = 0%nat.
Proof.
  intros Hs. apply quotes_none. intros Hq. unfold spaces in Hs.
  rewrite Forall_forall in Hs. specialize (Hs _ Hq). vm_compute in Hs.
  discriminate.
Qed.

(** What a match reads before its closing quote. *)
Definition opening ws1 ws2 v : text :=
  id_key ++ ws1 ++ colon :: ws2 ++ quote :: v.

Lemma opening_close ws1 ws2 v post :
  id_key ++ ws1 ++ colon :: ws2 ++ quote :: v ++ quote :: post
  = opening ws1 ws2 v ++ quote :: post.
Proof. unfold opening. by rewrite <- !app_assoc; cbn; rewrite <- !app_assoc. Qed.

Lemma quotes_opening ws1 ws2 v :
  spaces ws1 → spaces ws2 → quote ∉ v → quotes (opening ws1 ws2 v) = 3%nat.
Proof.
  intros H1 H2 Hv. unfold opening.
  change (colon :: ws2 ++ quote :: v) with ([colon] ++ ws2 ++ [quote] ++ v).
  rewrite !quotes_app.
  by rewrite (quotes_spaces ws1), (quotes_spaces ws2), (quotes_none v).
Qed.

Lemma matches_app s t v : matches s v → matches (s ++ t) v.
Proof.
  intros (ws1 & ws2 & post & -> & ?). exists ws1, ws2, (post ++ t).
  split; [|done]. by rewrite !opening_close, <- app_assoc.
Qed.

Lemma match_here_app s t v :
  match_here s = Some v → match_here (s ++ t) = Some v.
Proof. rewrite !match_here_spec. apply matches_app. Qed.

Lemma matches_quotes s v : matches s v → (4 ≤ quotes s)%nat.
Proof.
  intros (ws1 & ws2 & post & -> & H1 & H2 & _ & Hv).
  rewrite opening_close, quotes_app, quotes_opening by done.
  unfold quotes at 1. rewrite filter_cons_True by done. cbn. lia.
Qed.

(** A match that needs text still to come has at most three quotes before
    that text. *)
Lemma match_here_late s t v :
  match_here s = None → match_here (s ++ t) = Some v → (quotes s ≤ 3)%nat.
Proof.
  intros Hnone (ws1 & ws2 & post & Hs & H1 & H2 & Hne & Hv)%match_here_spec.
  rewrite opening_close in Hs.
  pose proof (quotes_opening ws1 ws2 v H1 H2 Hv) as Hq.
  apply app_eq_inv in Hs as [(k & Hk & Ht)|(k & Hk & Ht)].
  - destruct k as [|c k].
    + rewrite app_nil_r in Hk. subst s. lia.
    + injection Ht as <- _.
      assert (match_here s = Some v) as Hm; [|congruence].
      apply match_here_spec. exists ws1, ws2, k. split; [|done].
      by rewrite opening_close.
  - rewrite Hk in Hq. rewrite quotes_app in Hq. lia.
Qed.

Lemma id_match_quotes s v : id_match s = Some v → (4 ≤ quotes s)%nat.
Proof.
  intros (pre & rest & -> & Hm & _)%id_match_spec.
  apply matches_quotes in Hm. rewrite quotes_app. lia.
Qed.

(** The first match stays the first match when text is added. *)
Lemma id_match_app s t v : id_match s = Some v → id_match (s ++ t) = Some v.
Proof.
  induction s as [|c s IH]; cbn [id_match app].
  - by destruct (match_here []) eqn:E.
  - destruct (match_here (c :: s)) as [w|] eqn:E.
    + intros [= ->]. apply (match_here_app _ t) in E. cbn [app] in E.
      by rewrite E.
    + intros Hs. destruct (match_here (c :: s ++ t)) as [w|] eqn:E'.
      * pose proof (match_here_late (c :: s) t w E) as Hq. cbn [app] in Hq.
        specialize (Hq E').
        apply id_match_quotes in Hs.
        change (c :: s) with ([c] ++ s) in Hq. rewrite quotes_app in Hq. lia.
      * by apply IH.
Qed.

(** The text of a call: its deltas, in order. *)
Fixpoint text_for id deltas : text :=
  match deltas with
  | [] => []
  | (id', delta) :: rest =>
      if decide (id' = id) then delta ++ text_for id rest else text_for id rest
  end.

Lemma first_id_whole id buffer deltas :
  id_match buffer = None →
  first_id id buffer deltas = id_match (buffer ++ text_for id deltas).
Proof.
  revert buffer. induction deltas as [|[id' delta] deltas IH]; intros buffer Hb;
    cbn [first_id text_for].
  - by rewrite app_nil_r.
  - case_decide; [|by apply IH]. rewrite app_assoc.
    destruct (id_match (buffer ++ delta)) as [v|] eqn:E.
    + symmetry. by apply id_match_app.
    + by apply IH.
Qed.

Lemma buffer_of_onDeltas id deltas st :
  buffer_of id (onDeltas deltas st) = buffer_of id st ++ text_for id deltas.
Proof.
  revert st. induction deltas as [|[id' delta] deltas IH]; intros st;
    cbn [onDeltas text_for].
  - by rewrite app_nil_r.
  - rewrite IH. case_decide as Hid.
    + subst id'. rewrite app_assoc. f_equal.
      unfold buffer_of, onUpsertInputDelta.
      case_bool_decide; [|destruct id_match]; cbn; by rewrite lookup_insert_eq.
    + by destruct (onUpsertInputDelta_other id id' delta st Hid) as (-> & _).
Qed.

(** X19. The early signal depends on the whole text of a call, not on how
    it is cut into deltas: after any deltas, of any calls in any order, the
    signal of a call is the one the pattern gives on the concatenation of its
    deltas, and that concatenation is what its buffer holds. *)
Theorem signal_from_whole_text id deltas :
  let st := onDeltas deltas initial in
  signals_for id st = signal id (id_match (text_for id deltas))
  ∧ buffer_of id st = text_for id deltas.
Proof.
  split.
  - rewrite signals_first by apply not_elem_of_empty.
    by rewrite first_id_whole.
  - by rewrite buffer_of_onDeltas.
Qed.


(** What holds of the signals written so far. *)
Definition signals_ok st : Prop :=
  NoDup (toolCallId <$> written st)
  ∧ (∀ id, id ∈ sentEditingStart st ↔ id ∈ toolCallId <$> written st)
  ∧ Forall (λ e, screenId e ≠ [] ∧ quote ∉ screenId e) (written st).

Lemma signals_ok_delta id delta st :
  signals_ok st → signals_ok (onUpsertInputDelta id delta st).
Proof.
  intros (Hnd & Hsent & Hall). unfold onUpsertInputDelta.
  case_bool_decide as Hin; [done|].
  destruct (id_match _) as [v|] eqn:E; [|done].
  apply id_match_spec in E as (pre & rest & _ & Hm & _).
  destruct Hm as (s1 & s2 & s3 & _ & _ & _ & Hne & Hv).
  split_and!; cbn.
  - rewrite fmap_app. apply NoDup_app. split_and!; [done| |apply NoDup_singleton].
    intros y Hy ->%list_elem_of_singleton. by apply Hin, Hsent.
  - intros id'. rewrite fmap_app, elem_of_union, elem_of_app, Hsent. cbn.
    by rewrite elem_of_singleton, list_elem_of_singleton.
  - apply Forall_app. split; [done|]. by repeat constructor.
Qed.

Lemma signals_ok_deltas deltas st : signals_ok st → signals_ok (onDeltas deltas st).
Proof.
  revert st. induction deltas as [|[id delta] deltas IH]; intros st Hst;
    cbn [onDeltas]; [done|]. by apply IH, signals_ok_delta.
Qed.

(** X20. At any point of a stream the signals written are one for each
    call in [sentEditingStart] and no other, no two for the same call, and
    the screen id of each is not empty and holds no double quote. *)
Theorem written_signals deltas :
  let st := onDeltas deltas initial in
  NoDup (toolCallId <$> written st)
  ∧ (∀ id, id ∈ sentEditingStart st ↔ id ∈ toolCallId <$> written st)
  ∧ Forall (λ e, screenId e ≠ [] ∧ quote ∉ screenId e) (written st).
Proof.
  apply signals_ok_deltas. split_and!; cbn.
  - apply NoDup_nil_2.
  - intros id. by rewrite elem_of_nil, elem_of_empty.
  - constructor.
Qed.

End ExtractorMore.

(** * The tools of the agent *)
Section ToolProperties.
Import ProjectState ToolEvents AiTools.
Implicit Types (st : State) (d : Deps) (id : string) (i : ToolInvocation).

(** X21. [getScreen] finds a screen exactly for the ids [listScreens]
    lists, and the screen found has the id asked for and the name listed for
    it; when [screens] is not an array nothing is listed and nothing found. *)
Theorem getScreen_listed id screens :
  (is_Some (getScreen id screens) ↔ id ∈ ref_id <$> listScreens screens)
  ∧ (∀ c, getScreen id screens = Some c →
       code_id c = id
       ∧ {| ref_id := id; ref_name := code_name c |} ∈ listScreens screens)
  ∧ listScreens None = [] ∧ getScreen id None = None.
Proof.
  unfold getScreen, listScreens. split; [|split; [|done]].
  - rewrite fmap_is_Some, <- list_fmap_compose.
    change (ref_id ∘ _) with sc_id.
    destruct (list_find _ _) as [[k s]|] eqn:E.
    + apply list_find_Some in E as (Hk & Hid & _). split; [|by eauto].
      intros _. apply list_elem_of_fmap. exists s. split; [done|].
      by eapply list_elem_of_lookup_2.
    + split; [by intros [? ?]|]. intros Hin. exfalso.
      change (findIndex id (screenList screens) = None) in E.
      by apply findIndex_None in E.
  - intros c Hc. destruct (list_find _ _) as [[k s]|] eqn:E; [|done].
    injection Hc as <-. cbn.
    apply list_find_Some in E as (Hk & Hid & _). split; [done|].
    apply list_elem_of_fmap. exists s. split; [by rewrite Hid|].
    by eapply list_elem_of_lookup_2.
Qed.

(** X22. What the agent writes it reads back: once the output of the
    upsertScreen tool has been handled by the client, [getScreen] on the
    screens of the client returns the id, name, html and css of the input, and
    [listScreens] lists its id and name. *)
Theorem upsert_then_getScreen now d id i input index :
  invocation_of id d = Some i → toolName i = Some "upsertScreen" →
  (screens (project d) < length (heap (project d)))%nat →
  let output := {| out_screen := AiTools.upsertScreen input; out_index := index |} in
  let d' := handleChunk now (tool_output_available id (Some output)) d in
  getScreen (u_id input) (Some (live (project d'))) =
    Some {| code_id := u_id input; code_name := u_name input;
            code_html := u_html input; code_css := u_css input |}
  ∧ {| ref_id := u_id input; ref_name := u_name input |}
      ∈ listScreens (Some (live (project d'))).
Proof.
  intros Hi Hn Hs output d'.
  destruct (handleChunk_output now d id (Some output) i Hi) as [_ Hp].
  unfold is_tool in Hp. rewrite bool_decide_eq_true_2 in Hp by done.
  assert (∃ k s, findIndex (u_id input) (live (project d')) = Some (k, s)
                 ∧ sc_id s = u_id input ∧ sc_name s = u_name input
                 ∧ sc_html s = u_html input ∧ sc_css s = u_css input)
    as (k & s & Hf & Hid & Hname & Hhtml & Hcss).
  { subst d'. rewrite Hp.
    change (live (setIsDesigning false (setEditingScreenId None ?st)))
      with (live st).
    change (u_id input) with (p_id (out_screen output)).
    rewrite findIndex_upsertScreen by done.
    destruct (findIndex _ (live (project d))) as [[k old]|];
      by eexists _, _. }
  assert (getScreen (u_id input) (Some (live (project d'))) =
          Some {| code_id := u_id input; code_name := u_name input;
                  code_html := u_html input; code_css := u_css input |}) as Hg.
  { unfold getScreen.
    change (screenList (Some ?l)) with l.
    unfold findIndex in Hf. rewrite Hf. cbn. by rewrite Hid, Hname, Hhtml, Hcss. }
  split; [done|].
  apply list_find_Some in Hf as (Hk & _ & _).
  unfold listScreens. apply list_elem_of_fmap. exists s.
  split; [by rewrite Hid, Hname|]. by eapply list_elem_of_lookup_2.
Qed.

Definition login_call : UpsertInput :=
  {| u_id := "login"; u_name := "Login"; u_html := "<div/>"; u_css := "" |}.

Lemma upsert_then_getScreen_witness :
  invocation_of "call1" designing = Some call1_started
  ∧ toolName call1_started = Some "upsertScreen"
  ∧ (screens (project designing) < length (heap (project designing)))%nat
  ∧ getScreen "login"
      (Some (live (project
         (handleChunk 2
            (tool_output_available "call1"
               (Some {| out_screen := AiTools.upsertScreen login_call;
                        out_index := NaN |}))
            designing))))
    = Some {| code_id := "login"; code_name := "Login"; code_html := "<div/>";
              code_css := "" |}.
Proof.
  assert (invocation_of "call1" designing = Some call1_started) as Hi
    by (vm_compute; reflexivity).
  assert (screens (project designing) < length (heap (project designing)))%nat
    as Hs by (vm_compute; lia).
  split; [exact Hi|]. split; [reflexivity|]. split; [exact Hs|].
  exact (proj1 (upsert_then_getScreen 2 designing "call1" call1_started
                  login_call NaN Hi eq_refl Hs)).
Defined.

End ToolProperties.

(** * The export dialog *)
Section FilenameFacts.
Import ExportModal.
Implicit Types (s r : text) (c : N) (cls : N → bool) (run : bool).

(** No two hyphens in a row. *)
Fixpoint single_dashes s : Prop :=
  match s with
  | c :: r => (c = dash → head r ≠ Some dash) ∧ single_dashes r
  | [] => True
  end.

Definition clean c : Prop := alnum c = true ∨ c = dash.

Lemma alnum_dash : alnum dash = false.
Proof. reflexivity. Qed.

Lemma is_dash_true c : is_dash c = true ↔ c = dash.
Proof. unfold is_dash. apply N.eqb_eq. Qed.

Lemma is_dash_false c : is_dash c = false ↔ c ≠ dash.
Proof. unfold is_dash. apply N.eqb_neq. Qed.

(** What the first replacement leaves. *)
Lemma replace_runs_clean run s :
  let r := replace_runs (λ c, negb (alnum c)) run s in
  Forall clean r ∧ single_dashes r ∧ (run = true → head r ≠ Some dash).
Proof.
  revert run. induction s as [|c s IH]; intros run; cbn [replace_runs].
  - by split_and!.
  - destruct (alnum c) eqn:Ec; cbn [negb].
    + destruct (IH false) as (Hc & Hs & _). split_and!.
      * constructor; [by left|done].
      * cbn [single_dashes]. split; [|done]. intros ->. by rewrite alnum_dash in Ec.
      * intros _. cbn. intros [= ->]. by rewrite alnum_dash in Ec.
    + destruct (IH true) as (Hc & Hs & Hh). destruct run.
      * by split_and!.
      * split_and!; [constructor; [by right|done]| |done].
        cbn [single_dashes]. split; [|done]. intros _. by apply Hh.
Qed.

(** A replacement whose class holds, among the characters of the string, the
    hyphen alone changes nothing when no two hyphens are in a row. *)
Lemma replace_runs_id cls run s :
  Forall (λ c, cls c = true ↔ c = dash) s → single_dashes s →
  (run = true → head s ≠ Some dash) →
  replace_runs cls run s = s.
Proof.
  revert run. induction s as [|c s IH]; intros run Hcls Hs Hh; [done|].
  apply Forall_cons in Hcls as [Hc Hcls]. destruct Hs as [Hd Hs].
  cbn [replace_runs]. destruct (cls c) eqn:Ec.
  - destruct Hc as [Hc _]. rewrite (Hc eq_refl) in *. destruct run.
    + by destruct Hh.
    + f_equal. apply IH; [done..|]. intros _. by apply Hd.
  - f_equal. apply IH; [done..|]. done.
Qed.

Lemma strip_first_clean s :
  Forall clean s → single_dashes s →
  let r := strip_first s in
  Forall clean r ∧ single_dashes r ∧ head r ≠ Some dash.
Proof.
  destruct s as [|c s]; intros Hc Hs; cbn [strip_first]; [by split_and!|].
  apply Forall_cons in Hc as [Hc Hcs]. destruct Hs as [Hd Hs].
  destruct (is_dash c) eqn:Ec.
  - apply is_dash_true in Ec. by split_and!; [| |apply Hd].
  - apply is_dash_false in Ec. split_and!; [by constructor|done|].
    cbn. by intros [= ->].
Qed.

Lemma strip_last_head s :
  strip_last s = [] ∧ (s = [] ∨ s = [dash]) ∨ head (strip_last s) = head s ∧ strip_last s ≠ [].
Proof.
  destruct s as [|c [|d s]]; cbn [strip_last].
  - left. by split; [|left].
  - destruct (is_dash c) eqn:Ec.
    + apply is_dash_true in Ec as ->. left. by split; [|right].
    + by right.
  - by right.
Qed.

Lemma strip_last_clean s :
  Forall clean s → single_dashes s →
  let r := strip_last s in
  Forall clean r ∧ single_dashes r ∧ last r ≠ Some dash.
Proof.
  induction s as [|c s IH]; intros Hc Hs; [by split_and!|].
  apply Forall_cons in Hc as [Hc Hcs]. destruct Hs as [Hd Hs].
  destruct (IH Hcs Hs) as (IHc & IHs & IHl).
  destruct s as [|d s].
  - cbn [strip_last]. destruct (is_dash c) eqn:Ec; [by split_and!|].
    apply is_dash_false in Ec. split_and!; [by constructor|done|].
    cbn. by intros [= ->].
  - change (strip_last (c :: d :: s)) with (c :: strip_last (d :: s)).
    destruct (strip_last_head (d :: s)) as [[E [?| [= -> ->]]]|[E Hne]]; [done| |].
    + rewrite E. split_and!; [by constructor|done|].
      cbn. intros [= ->]. by apply Hd.
    + split_and!; [by constructor| |].
      * cbn [single_dashes]. split; [|done]. by rewrite E.
      * destruct (strip_last (d :: s)) as [|x y] eqn:Ex; [done|].
        by rewrite last_cons_cons.
Qed.

Lemma strip_first_id s : head s ≠ Some dash → strip_first s = s.
Proof.
  destruct s as [|c s]; [done|]. cbn. intros Hc.
  destruct (is_dash c) eqn:Ec; [|done]. apply is_dash_true in Ec as ->. done.
Qed.

Lemma strip_last_id s : last s ≠ Some dash → strip_last s = s.
Proof.
  induction s as [|c [|d s] IH]; intros Hl; [done| |].
  - cbn in *. destruct (is_dash c) eqn:Ec; [|done].
    apply is_dash_true in Ec as ->. done.
  - change (strip_last (c :: d :: s)) with (c :: strip_last (d :: s)).
    f_equal. apply IH. by rewrite last_cons_cons in Hl.
Qed.

Lemma strip_last_keeps_head s :
  head s ≠ Some dash → head (strip_last s) ≠ Some dash.
Proof.
  destruct (strip_last_head s) as [[-> _]|[-> _]]; done.
Qed.

Lemma single_dashes_lookup s (k : nat) :
  single_dashes s → s !! k = Some dash → s !! S k ≠ Some dash.
Proof.
  revert k. induction s as [|c s IH]; intros k Hs Hk; [done|].
  destruct Hs as [Hd Hs]. destruct k as [|k].
  - injection Hk as ->. cbn [lookup list_lookup]. specialize (Hd eq_refl).
    by destruct s.
  - cbn in *. by apply IH.
Qed.

End FilenameFacts.

Section ExportProperties.
Import ProjectState ExportModal.
Variable toLowerCase : text → text.

(** What [sanitizeFilename] returns, whatever the name. *)
Lemma sanitizeFilename_clean name :
  let r := sanitizeFilename toLowerCase name in
  Forall clean r ∧ single_dashes r ∧ head r ≠ Some dash ∧ last r ≠ Some dash.
Proof.
  unfold sanitizeFilename.
  destruct (replace_runs_clean false (toLowerCase name)) as (Hc & Hs & _).
  rewrite (replace_runs_id is_dash false
             (replace_runs (λ c, negb (alnum c)) false (toLowerCase name)));
    [|by eapply Forall_impl; [done|]; intros c _; apply is_dash_true|done|done].
  destruct (strip_first_clean _ Hc Hs) as (Hc1 & Hs1 & Hh1).
  destruct (strip_last_clean _ Hc1 Hs1) as (Hc2 & Hs2 & Hl2).
  split_and!; [done|done| |done]. by apply strip_last_keeps_head.
Qed.

(** X23. Whatever the name of a screen, the file name made from it holds
    lower-case letters, digits and hyphens only, neither starts nor ends with
    a hyphen, and has no two hyphens in a row. It can be empty. *)
Theorem sanitizeFilename_safe name :
  let r := sanitizeFilename toLowerCase name in
  Forall (λ c, alnum c = true ∨ c = dash) r
  ∧ head r ≠ Some dash ∧ last r ≠ Some dash
  ∧ ∀ k : nat, r !! k = Some dash → r !! S k ≠ Some dash.
Proof.
  destruct (sanitizeFilename_clean name) as (Hc & Hs & Hh & Hl).
  split_and!; [done..|]. intros k. by apply single_dashes_lookup.
Qed.

(** X24. Making a file name of a file name changes nothing, as long as
    lower-casing leaves the first result as it is (it holds nothing upper
    case): so a name and the file name made from it give the same file. *)
Theorem sanitizeFilename_again name :
  toLowerCase (sanitizeFilename toLowerCase name)
  = sanitizeFilename toLowerCase name →
  sanitizeFilename toLowerCase (sanitizeFilename toLowerCase name)
  = sanitizeFilename toLowerCase name.
Proof.
  intros Hlower.
  destruct (sanitizeFilename_clean name) as (Hc & Hs & Hh & Hl).
  set (r := sanitizeFilename toLowerCase name) in *.
  unfold sanitizeFilename at 1. rewrite Hlower.
  rewrite (replace_runs_id (λ c, negb (alnum c)) false r); [|
    eapply Forall_impl; [exact Hc|]; intros c [Ha| ->];
      [rewrite Ha; split; [done|intros ->; by rewrite alnum_dash in Ha]|
       by rewrite alnum_dash] | done | done].
  rewrite (replace_runs_id is_dash false r);
    [|by eapply Forall_impl; [done|]; intros c _; apply is_dash_true|done|done].
  by rewrite strip_first_id, strip_last_id.
Qed.

End ExportProperties.

(** Lower-casing of the letters A to Z, which is what [toLowerCase] does to a
    name of ASCII characters. *)
Definition lower_ascii (s : text) : text :=
  (λ c, if (65 <=? c)%N && (c <=? 90)%N then (c + 32)%N else c) <$> s.

Example sanitizeFilename_login :
  ExportModal.sanitizeFilename lower_ascii (units "  Login -- Page (v2)!")
  = units "login-page-v2".
Proof. vm_compute. reflexivity. Qed.

Lemma sanitizeFilename_again_witness :
  lower_ascii (ExportModal.sanitizeFilename lower_ascii (units "Login Page!"))
  = ExportModal.sanitizeFilename lower_ascii (units "Login Page!")
  ∧ ExportModal.sanitizeFilename lower_ascii
      (ExportModal.sanitizeFilename lower_ascii (units "Login Page!"))
    = units "login-page".
Proof.
  assert (lower_ascii (ExportModal.sanitizeFilename lower_ascii (units "Login Page!"))
          = ExportModal.sanitizeFilename lower_ascii (units "Login Page!")) as H
    by (vm_compute; reflexivity).
  split; [exact H|].
  exact (sanitizeFilename_again lower_ascii (units "Login Page!") H).
Defined.

Section SelectionProperties.
Import ProjectState ExportModal.
Implicit Types (st : State) (l : list Screen) (sel : gset string) (cs : list Click).

Lemma filter_all {A} (P : A → Prop) `{∀ x, Decision (P x)} (l : list A) :
  filter P l = l ↔ Forall P l.
Proof.
  induction l as [|a l IH].
  - by split; [constructor|].
  - rewrite filter_cons. case_decide as Ha.
    + split.
      * intros [= E]. constructor; [done|by apply IH].
      * intros [_ Hl]%Forall_cons. f_equal. by apply IH.
    + split.
      * intros E. pose proof (length_filter P l) as Hlen.
        rewrite E in Hlen. cbn in Hlen. lia.
      * by intros [? _]%Forall_cons.
Qed.

(** A click on the box of a screen of the list, or on the box of all. *)
Definition on_screen l (c : Click) : Prop :=
  match c with
  | click_all => True
  | click_screen id => id ∈ sc_id <$> l
  end.

Lemma click_within l sel c :
  on_screen l c → sel ⊆ opened l → click l sel c ⊆ opened l.
Proof.
  intros Hc Hsel. destruct c as [|id]; cbn [click].
  - unfold toggleAll. destruct allSelected; [|done]. apply empty_subseteq.
  - unfold toggleScreen. case_decide.
    + intros x [Hx _]%elem_of_difference. by apply Hsel.
    + intros x [Hx| ->%elem_of_singleton]%elem_of_union; [by apply Hsel|].
      by apply elem_of_list_to_set.
Qed.

Lemma clicks_within l cs sel :
  Forall (on_screen l) cs → sel ⊆ opened l →
  foldl (click l) sel cs ⊆ opened l.
Proof.
  revert sel. induction cs as [|c cs IH]; intros sel Hcs Hsel; [done|].
  apply Forall_cons in Hcs as [Hc Hcs]. cbn [foldl].
  by apply IH, click_within.
Qed.

Lemma allSelected_within l sel :
  l ≠ [] → NoDup (sc_id <$> l) → sel ⊆ opened l →
  allSelected l sel = true ↔ selectedScreens l sel = l.
Proof.
  intros Hne Hnd Hsel. unfold allSelected, selectedScreens.
  rewrite filter_all, andb_true_iff, Nat.ltb_lt, Nat.eqb_eq.
  assert (size (opened l) = length l) as Hsize.
  { unfold opened. by rewrite size_list_to_set, length_fmap. }
  split.
  - intros [_ E]. apply Forall_forall. intros s Hs.
    assert (sel ≡ opened l) as Heq by (apply set_subseteq_size_equiv; [done|lia]).
    apply Heq, elem_of_list_to_set, list_elem_of_fmap. by exists s.
  - intros Hall. split; [destruct l; [done|cbn; lia]|].
    rewrite <- Hsize. f_equal. apply leibniz_equiv, set_equiv_subseteq.
    split; [done|]. intros x (s & -> & Hs)%elem_of_list_to_set%list_elem_of_fmap.
    by apply (proj1 (Forall_forall _ _) Hall).
Qed.

(** X25. In a state the module reaches, with the export dialog opened and
    after any clicks on the boxes of its screens and on the box of all, the
    box of all is shown checked exactly when the export would write every
    screen. *)
Theorem all_selected_shown st cs :
  reachable st → Forall (on_screen (live st)) cs →
  allSelected (live st) (clicks (live st) cs) = true
  ↔ selectedScreens (live st) (clicks (live st) cs) = live st.
Proof.
  intros Hr Hcs.
  destruct (unique_ids_reachable st Hr) as [Hnd _].
  destruct (every_version_reachable
              (λ l, ids l !! 0%nat = Some "welcome") st) as [Hw _];
    [done|by intros; apply first_id_upsertScreen|done|].
  apply allSelected_within.
  - intros E. by rewrite E in Hw.
  - done.
  - by apply clicks_within.
Qed.

Lemma all_selected_shown_witness :
  reachable with_login
  ∧ Forall (on_screen (live with_login)) [click_screen "login"; click_all]
  ∧ (allSelected (live with_login)
       (clicks (live with_login) [click_screen "login"; click_all]) = true
     ↔ selectedScreens (live with_login)
         (clicks (live with_login) [click_screen "login"; click_all])
       = live with_login).
Proof.
  assert (reachable with_login) as H by apply reach_upsertScreen, reach_initial.
  assert (Forall (on_screen (live with_login)) [click_screen "login"; click_all])
    as Hcs.
  { apply Forall_cons_2; [|apply Forall_cons_2; [exact I|apply Forall_nil_2]].
    apply list_elem_of_further, list_elem_of_here. }
  split; [exact H|]. split; [exact Hcs|].
  exact (all_selected_shown with_login _ H Hcs).
Defined.

(** X26. In a state the module reaches, the box of all selects every screen
    when not all are selected, after which it is shown checked, and clears the
    selection when all are. *)
Theorem toggleAll_selects st sel :
  reachable st →
  let sel' := toggleAll (live st) sel in
  if allSelected (live st) sel
  then sel' = ∅ ∧ selectedScreens (live st) sel' = []
  else selectedScreens (live st) sel' = live st
       ∧ allSelected (live st) sel' = true.
Proof.
  intros Hr sel'. subst sel'. unfold toggleAll.
  destruct (allSelected (live st) sel) eqn:E.
  - split; [done|]. unfold selectedScreens. clear E.
    induction (live st) as [|s l IH]; [done|].
    rewrite filter_cons, decide_False; [exact IH|apply not_elem_of_empty].
  - destruct (unique_ids_reachable st Hr) as [Hnd _].
    destruct (every_version_reachable
                (λ l, ids l !! 0%nat = Some "welcome") st) as [Hw _];
      [done|by intros; apply first_id_upsertScreen|done|].
    assert (selectedScreens (live st) (list_to_set (sc_id <$> live st)) = live st)
      as Hall.
    { apply filter_all, Forall_forall. intros s Hs.
      apply elem_of_list_to_set, list_elem_of_fmap. by exists s. }
    split; [done|]. apply allSelected_within; [|done|done|done].
    intros El. by rewrite El in Hw.
Qed.

Lemma toggleAll_selects_witness :
  reachable with_login
  ∧ selectedScreens (live with_login) (toggleAll (live with_login) ∅)
    = live with_login
  ∧ allSelected (live with_login) (toggleAll (live with_login) ∅) = true.
Proof.
  assert (reachable with_login) as H by apply reach_upsertScreen, reach_initial.
  split; [exact H|]. exact (toggleAll_selects with_login ∅ H).
Defined.

End SelectionProperties.

(** * A response from bytes to state *)
Section StreamProperties.
Import ProjectState ToolEvents Sse ChatAgent.
Implicit Types (st : State) (d : Deps) (chunk : SSEChunk).

(** A project state without the clock readings of its history. *)
Definition untimed_state st :=
  (heap st, screens st, hi_screens <$> history st, editingScreenId st,
   isDesigning st).

(** The state of a handler without them. *)
Definition untimed d :=
  (assistantMessage d, toolCallIdToScreenId d, untimed_state (project d)).

Lemma upsertScreen_untimed now1 now2 screen options st1 st2 :
  untimed_state st1 = untimed_state st2 →
  untimed_state (upsertScreen now1 screen options st1)
  = untimed_state (upsertScreen now2 screen options st2).
Proof.
  destruct st1, st2. unfold untimed_state. cbn. intros [= -> -> Hh -> ->].
  unfold upsertScreen, push_snapshot, live. cbn.
  destruct (records_history options); cbn;
    destruct (findIndex _ _) as [[??]|]; cbn; by rewrite ?fmap_app, Hh.
Qed.

Lemma restoreVersion_untimed index st1 st2 :
  untimed_state st1 = untimed_state st2 →
  untimed_state (restoreVersion index st1)
  = untimed_state (restoreVersion index st2).
Proof.
  destruct st1 as [h1 s1 hist1 e1 g1], st2 as [h2 s2 hist2 e2 g2].
  unfold untimed_state. cbn. intros [= -> -> Hh -> ->].
  unfold restoreVersion, history_at, snapshot. cbn.
  destruct (array_index index) as [i|]; cbn; [|by rewrite Hh].
  assert (hi_screens <$> hist1 !! i = hi_screens <$> hist2 !! i) as Hi
    by by rewrite <- !list_lookup_fmap, Hh.
  destruct (hist1 !! i) as [[t1 l1]|], (hist2 !! i) as [[t2 l2]|];
    cbn in *; try done; [|by rewrite Hh].
  injection Hi as ->. by rewrite Hh.
Qed.

Lemma setEditingScreenId_untimed id st1 st2 :
  untimed_state st1 = untimed_state st2 →
  untimed_state (setEditingScreenId id st1)
  = untimed_state (setEditingScreenId id st2).
Proof. unfold untimed_state. cbn. by intros [= -> -> -> _ ->]. Qed.

Lemma setIsDesigning_untimed value st1 st2 :
  untimed_state st1 = untimed_state st2 →
  untimed_state (setIsDesigning value st1)
  = untimed_state (setIsDesigning value st2).
Proof. unfold untimed_state. cbn. by intros [= -> -> -> -> _]. Qed.

Lemma handleChunk_untimed now1 now2 chunk d1 d2 :
  untimed d1 = untimed d2 →
  untimed (handleChunk now1 chunk d1) = untimed (handleChunk now2 chunk d2).
Proof.
  destruct d1 as [m t p1], d2 as [m2 t2 p2]. unfold untimed at 1 2.
  cbn [assistantMessage toolCallIdToScreenId project]. intros E.
  assert (m2 = m) as -> by congruence. assert (t2 = t) as -> by congruence.
  assert (untimed_state p1 = untimed_state p2) as Hp by congruence. clear E.
  pose proof upsertScreen_untimed as Hu.
  pose proof restoreVersion_untimed as Hr.
  pose proof setEditingScreenId_untimed as He.
  pose proof setIsDesigning_untimed as Hg.
  destruct chunk as [delta|id name|[screenId|] [id|]|id name input|id output
                     |id text|text|type];
    cbn [handleChunk assistantMessage];
    try destruct (getOrCreateInvocation _ _ m) as [m' invocation];
    try destruct (String.eqb _ _);
    try destruct (is_tool "upsertScreen" _);
    try destruct (is_tool "restoreVersion" _);
    try destruct (input ≫= in_id);
    try destruct output;
    unfold untimed;
    cbn [with_project with_map with_message assistantMessage
         toolCallIdToScreenId project];
    f_equal; auto 6.
Qed.

Lemma receive_untimed clock1 clock2 k1 k2 cs d1 d2 :
  untimed d1 = untimed d2 →
  untimed (receive clock1 k1 cs d1) = untimed (receive clock2 k2 cs d2).
Proof.
  revert k1 k2 d1 d2. induction cs as [|[chunk|data|] cs IH];
    intros k1 k2 d1 d2 Hd; cbn [receive]; [done|..]; apply IH; [|done|done].
  by apply handleChunk_untimed.
Qed.

(** X27. What a response leaves behind depends on its bytes alone: however
    the bytes are cut into chunks and whatever the clock shows while they are
    handled, the message, the map, the screens, the screens of every history
    item, the editing pointer and the designing flag come out the same. Only
    the timestamps of the history items can differ. *)
Theorem stream_depends_on_bytes JSON_parse clock1 clock2 chunks1 chunks2 d :
  concat chunks1 = concat chunks2 →
  let d1 := stream JSON_parse clock1 chunks1 d in
  let d2 := stream JSON_parse clock2 chunks2 d in
  assistantMessage d1 = assistantMessage d2
  ∧ toolCallIdToScreenId d1 = toolCallIdToScreenId d2
  ∧ live (project d1) = live (project d2)
  ∧ (snapshot (project d1) <$> history (project d1))
    = (snapshot (project d2) <$> history (project d2))
  ∧ editingScreenId (project d1) = editingScreenId (project d2)
  ∧ isDesigning (project d1) = isDesigning (project d2).
Proof.
  intros E d1 d2.
  assert (untimed d1 = untimed d2) as Hu.
  { subst d1 d2. unfold stream, calls.
    rewrite (parseSSEStream_decoded chunks1), (parseSSEStream_decoded chunks2).
    unfold decoded. rewrite E. by apply receive_untimed. }
  unfold untimed, untimed_state in Hu.
  injection Hu as Hm Ht Hh Hs Hhist He Hg.
  split_and!; [done|done| | |done|done].
  - unfold live. by rewrite Hh, Hs.
  - unfold snapshot. rewrite Hh.
    change (λ item, deref (heap (project d2)) (hi_screens item))
      with (deref (heap (project d2)) ∘ hi_screens).
    by rewrite !list_fmap_compose, Hhist.
Qed.

(** A parser that reads every payload as a text delta of one character. *)
Definition as_delta (data : text) : option SSEChunk := Some (text_delta "x").

Lemma stream_depends_on_bytes_witness :
  concat sample_cut = concat [sample]
  ∧ assistantMessage (stream as_delta (λ k, Z.of_nat k) sample_cut (fresh initial))
    = assistantMessage (stream as_delta (λ _, 0) [sample] (fresh initial))
  ∧ live (project (stream as_delta (λ k, Z.of_nat k) sample_cut (fresh initial)))
    = live (project (stream as_delta (λ _, 0) [sample] (fresh initial))).
Proof.
  assert (concat sample_cut = concat [sample]) as H by (vm_compute; reflexivity).
  split; [exact H|].
  destruct (stream_depends_on_bytes as_delta (λ k, Z.of_nat k) (λ _, 0)
              sample_cut [sample] (fresh initial) H) as (Hm & _ & Hl & _).
  split; [exact Hm|exact Hl].
Defined.

End StreamProperties.
